(** * TrackerDSST: the KCF tracker with DSST scale estimation

    A shallow embedding of [src/kcftracker.cpp] and the properties of it
    that the specification relies on.

    Numeric conventions of the embedding.
    - [int] values ([cv::Rect] fields, image sizes, indices, [cell_size],
      [base_width] ...) are integers in [Z].  Signed overflow is undefined in
      C++, so no wrap-around is modelled: the statements are about runs that
      stay in range.  Integer division [/] of C++ rounds toward zero and is
      [Z.quot].
    - [float] and [double] values are modelled by reals in [R]: the
      arithmetic is exact, without rounding, overflow or NaN.  Two places
      where single precision changes an outcome rather than a last digit
      are modelled beside the exact version: [ieee.subPixelPeak] is
      [subPixelPeak] on IEEE 754 binary32 and binary64 values, bit for bit,
      and [exp_f32] stores as 0 an exponential too small for a [float].
    - The conversion of a floating value to [int] by a cast or an
      assignment truncates toward zero ([float2int]); the conversion of an
      [int] to a floating value is [IZR].  The literal
      [3.14159265358979323846] is [PI]; [std::log], [std::exp], [std::cos],
      [std::sqrt] are [ln], [exp], [cos], [sqrt]; [std::pow] on a positive
      base is [Rpower].
    - A single-channel [cv::Mat] of floats is a list of rows.
    - Modelled from the spec: the class declaration [kcftracker.hpp] is not
      under [src/].  The data model of the spec gives the bounding box as
      [x, y, width, height (float)], so [_roi] is a [cv::Rect_<float>];
      [update] returns a [cv::Rect], and the conversion rounds each field to
      the nearest integer ([cv.cvRound]).
    - The appearance model ([_tmpl], [_alphaf], [_prob]) and the scale filter
      ([sf_num], [sf_den], [ysf]) are complex spectra produced by the FFT
      collaborators.  They influence the geometry only through the response
      matrices that [detect] and [detect_scale] search for their maximum;
      those matrices are inputs of the embedding ([Observation]).  An
      exception thrown by a collaborator is not modelled, and neither is a
      failure of [get_scale_sample] inside [init] and [update]: that
      function is modelled on its own, and a result of [init] or [update]
      is the result of a run in which feature extraction and the scale
      sample complete. *)

From Stdlib Require Import Reals ZArith List Lia Lra Bool.
From Stdlib Require Import SpecFloat.
Import ListNotations.

Open Scope R_scope.

(** ** Floating-point and integer helpers *)

(** Conversion of a [float] to an [int]: truncation toward zero. *)
Definition float2int (r : R) : Z :=
  if Rle_dec 0 r then Zfloor r else Zceil r.

Definition Rltb (a b : R) : bool := if Rlt_dec a b then true else false.
Definition Rleb (a b : R) : bool := if Rle_dec a b then true else false.
Definition Reqb (a b : R) : bool := if Req_dec_T a b then true else false.

(** [std::ceil] and [std::floor], whose results are floating values. *)
Definition ceilf (r : R) : R := IZR (Zceil r).
Definition floorf (r : R) : R := IZR (Zfloor r).

(** An exponential whose result is stored in a [float], by [cv::exp] on a
    matrix of [float]s or by an assignment of [std::exp (...)] to an element
    of one.  A result of at most [2 ^ -150], half the smallest positive
    [float], is stored as 0 (arguments below [-150 * ln 2], about -103.97).
    A result between that and [2 ^ -126], the smallest normal [float]
    (arguments down from about -87.3), is stored as a subnormal number or as
    0, as the implementation of the exponential decides; the model keeps
    [exp v] there, and the statements say nothing about such an element.
    The rounding of a larger result is not modelled. *)
Definition exp_f32 (v : R) : R :=
  if Rleb (exp v) (/ 2 ^ 150) then 0 else exp v.

(** ** OpenCV value types *)

Module cv.

(** [cv::Rect_<T>].  [cv::Rect] is [Rect_<int>] and [cv::Rect2f] is
    [Rect_<float>]. *)
Record Rect_ (T : Type) : Type :=
  mkRect_ { x : T; y : T; width : T; height : T }.
Arguments mkRect_ {T} x y width height.
Arguments x {T} r.
Arguments y {T} r.
Arguments width {T} r.
Arguments height {T} r.

Definition Rect : Type := Rect_ Z.
Definition Rect2f : Type := Rect_ R.
Definition mkRect (x y width height : Z) : Rect := mkRect_ x y width height.
Definition mkRect2f (x y width height : R) : Rect2f :=
  mkRect_ x y width height.

(** [cvRound], which is [cv::saturate_cast<int>] on a [float] or [double]:
    the nearest integer, and the even one of the two when the value lies
    halfway between them. *)
Definition cvRound (r : R) : Z :=
  let f := Zfloor r in
  if Rltb (r - IZR f) 0.5 then f
  else if Rltb 0.5 (r - IZR f) then (f + 1)%Z
  else if Z.even f then f else (f + 1)%Z.

(** The conversions between [Rect_<int>] and [Rect_<float>]: field by
    field, with [saturate_cast] toward [int]. *)
Definition to_Rect2f (r : Rect) : Rect2f :=
  mkRect_ (IZR (x r)) (IZR (y r)) (IZR (width r)) (IZR (height r)).
Definition to_Rect (r : Rect2f) : Rect :=
  mkRect_ (cvRound (x r)) (cvRound (y r))
          (cvRound (width r)) (cvRound (height r)).

(** [cv::Point], that is [cv::Point_<int>]. *)
Record Point : Set := mkPoint { px : Z; py : Z }.

(** The part of an image [cv::Mat] the tracker's geometry reads. *)
Record Image : Set := mkImage { cols : Z; rows : Z }.

(** A single-channel matrix of floats, row by row. *)
Definition Mat : Type := list (list R).

Definition mat_rows (m : Mat) : nat := length m.
Definition mat_cols (m : Mat) : nat :=
  match m with [] => O | r :: _ => length r end.

(** [Rect::operator&=]: the intersection; an empty intersection is the
    default rectangle. *)
Definition rect_and (a b : Rect) : Rect :=
  let x1 := Z.max (x a) (x b) in
  let y1 := Z.max (y a) (y b) in
  let w := (Z.min (x a + width a) (x b + width b) - x1)%Z in
  let h := (Z.min (y a + height a) (y b + height b) - y1)%Z in
  if ((w <=? 0) || (h <=? 0))%Z then mkRect 0 0 0 0 else mkRect x1 y1 w h.

End cv.

Definition with_x {T} (r : cv.Rect_ T) (v : T) : cv.Rect_ T :=
  cv.mkRect_ v (cv.y r) (cv.width r) (cv.height r).
Definition with_y {T} (r : cv.Rect_ T) (v : T) : cv.Rect_ T :=
  cv.mkRect_ (cv.x r) v (cv.width r) (cv.height r).

(** ** The tracker object *)

(** Hyper-parameters: the public fields the constructor chooses. *)
Record Params : Type := mkParams {
  interp_factor : R;
  sigma : R;
  lambda : R;
  cell_size : Z;
  cell_sizeQ : Z;
  padding : R;
  output_sigma_factor : R;
  template_size : Z;
  scale_max_area : Z;
  scale_padding : R;
  scale_step : R;
  scale_sigma_factor : R;
  n_scales : Z;
  scale_lr : R;
  scale_lambda : R;
  _hogfeatures : bool;
  _labfeatures : bool
}.

Record KCFTracker : Type := mkTracker {
  cfg : Params;
  currentScaleFactor : R;
  _roi : cv.Rect2f;
  _scale : R;
  _tmpl_sz : Z * Z;                 (* width, height *)
  size_patch : Z * Z * Z;           (* size_patch[0], [1], [2] *)
  hann : cv.Mat;
  s_hann : list R;
  base_width : Z;
  base_height : Z;
  scaleFactors : list R;
  scale_model_width : Z;
  scale_model_height : Z;
  min_scale_factor : R;
  max_scale_factor : R
}.

Definition with_roi (t : KCFTracker) (r : cv.Rect2f) : KCFTracker :=
  mkTracker (cfg t) (currentScaleFactor t) r (_scale t) (_tmpl_sz t)
    (size_patch t) (hann t) (s_hann t) (base_width t) (base_height t)
    (scaleFactors t) (scale_model_width t) (scale_model_height t)
    (min_scale_factor t) (max_scale_factor t).

Definition with_currentScaleFactor (t : KCFTracker) (c : R) : KCFTracker :=
  mkTracker (cfg t) c (_roi t) (_scale t) (_tmpl_sz t)
    (size_patch t) (hann t) (s_hann t) (base_width t) (base_height t)
    (scaleFactors t) (scale_model_width t) (scale_model_height t)
    (min_scale_factor t) (max_scale_factor t).

Definition with_size_patch (t : KCFTracker) (sp : Z * Z * Z) : KCFTracker :=
  mkTracker (cfg t) (currentScaleFactor t) (_roi t) (_scale t) (_tmpl_sz t)
    sp (hann t) (s_hann t) (base_width t) (base_height t)
    (scaleFactors t) (scale_model_width t) (scale_model_height t)
    (min_scale_factor t) (max_scale_factor t).

Definition with_template (t : KCFTracker) (s : R) (sz : Z * Z) : KCFTracker :=
  mkTracker (cfg t) (currentScaleFactor t) (_roi t) s sz
    (size_patch t) (hann t) (s_hann t) (base_width t) (base_height t)
    (scaleFactors t) (scale_model_width t) (scale_model_height t)
    (min_scale_factor t) (max_scale_factor t).

Definition with_hann (t : KCFTracker) (h : cv.Mat) : KCFTracker :=
  mkTracker (cfg t) (currentScaleFactor t) (_roi t) (_scale t) (_tmpl_sz t)
    (size_patch t) h (s_hann t) (base_width t) (base_height t)
    (scaleFactors t) (scale_model_width t) (scale_model_height t)
    (min_scale_factor t) (max_scale_factor t).

(** [KCFTracker::KCFTracker(hog, fixed_window, multiscale, lab)].  A field the
    chosen branch does not assign keeps the indeterminate value it had in the
    fresh object [mem]. *)
Definition KCFTracker_new (mem : KCFTracker)
    (hog fixed_window multiscale lab : bool) : KCFTracker :=
  let m := cfg mem in
  let cell := if hog then 4%Z else 1%Z in
  let p := {|
    lambda := 0.0001;
    padding := 2.5;
    output_sigma_factor := if hog && lab then 0.1 else 0.125;
    interp_factor := if hog then (if lab then 0.005 else 0.012) else 0.075;
    sigma := if hog then (if lab then 0.4 else 0.6) else 0.2;
    cell_size := cell;
    cell_sizeQ := if hog && lab then (cell * cell)%Z else cell_sizeQ m;
    _hogfeatures := hog;
    _labfeatures := if hog then lab else if lab then false else _labfeatures m;
    template_size := if multiscale || fixed_window then 96%Z else 1%Z;
    scale_padding := if multiscale then 1.0 else scale_padding m;
    scale_step := if multiscale then 1.05 else 1;
    scale_sigma_factor := if multiscale then 0.25 else scale_sigma_factor m;
    n_scales := if multiscale then 33%Z else n_scales m;
    scale_lr := if multiscale then 0.025 else scale_lr m;
    scale_max_area := if multiscale then 512%Z else scale_max_area m;
    scale_lambda := if multiscale then 0.01 else scale_lambda m
  |} in
  mkTracker p (if multiscale then 1 else currentScaleFactor mem)
    (_roi mem) (_scale mem) (_tmpl_sz mem) (size_patch mem) (hann mem)
    (s_hann mem) (base_width mem) (base_height mem) (scaleFactors mem)
    (scale_model_width mem) (scale_model_height mem)
    (min_scale_factor mem) (max_scale_factor mem).

(** ** Sub-pixel peak *)

(** [KCFTracker::subPixelPeak] in exact arithmetic, as [detect] uses it
    below; [ieee.subPixelPeak] is the function on [float]s. *)
Definition subPixelPeak (left center right : R) : R :=
  let divisor := 2 * center - right - left in
  if Reqb divisor 0 then 0
  else 0.5 * (right - left) / divisor.

(** *** In floating-point arithmetic

    IEEE 754 values are the [spec_float]s of the Standard Library, with its
    operations that round to nearest, ties to even: [f32] is [float]
    (binary32), [f64] is [double] (binary64). *)
Module f32.

Definition prec : Z := 24.
Definition emax : Z := 128.

Definition sub : spec_float -> spec_float -> spec_float := SFsub prec emax.
Definition mul : spec_float -> spec_float -> spec_float := SFmul prec emax.

(** The conversion of an [int] and of a [double] to [float]. *)
Definition of_int (z : Z) : spec_float := binary_normalize prec emax z 0 false.
Definition of_f64 (v : spec_float) : spec_float :=
  match v with
  | S754_finite s m e => binary_round prec emax s m e
  | _ => v
  end.

End f32.

Module f64.

Definition prec : Z := 53.
Definition emax : Z := 1024.

Definition mul : spec_float -> spec_float -> spec_float := SFmul prec emax.
Definition div : spec_float -> spec_float -> spec_float := SFdiv prec emax.

(** The literal [0.5], and the conversion of a [float] to [double], which
    is exact. *)
Definition half : spec_float := binary_normalize prec emax 1 (-1) false.
Definition of_f32 (v : spec_float) : spec_float :=
  match v with
  | S754_finite s m e => binary_round prec emax s m e
  | _ => v
  end.

End f64.

Module ieee.

(** [KCFTracker::subPixelPeak] as it is evaluated where [float]
    expressions are computed in [float] (x86-64, ARM): [divisor] is
    computed in [float], from left to right; [0.5] is a [double], so the
    product and the quotient of the last line are computed in [double] and
    the result is converted to [float] on return. *)
Definition subPixelPeak (left center right : spec_float) : spec_float :=
  let divisor :=
    f32.sub (f32.sub (f32.mul (f32.of_int 2) center) right) left in
  if SFeqb divisor (f32.of_int 0) then f32.of_int 0
  else
    f32.of_f64
      (f64.div (f64.mul f64.half (f64.of_f32 (f32.sub right left)))
               (f64.of_f32 divisor)).

End ieee.

(** ** Matrices *)

Definition Rsum (l : list R) : R := fold_right Rplus 0 l.

(** [m.at<float>(i, j)] for indices known to be in range. *)
Definition mat_get (m : cv.Mat) (i j : nat) : R := nth j (nth i m []) 0.

Definition mat_init (h w : nat) (f : nat -> nat -> R) : cv.Mat :=
  map (fun i => map (f i) (seq 0 w)) (seq 0 h).

Definition zip_with (f : R -> R -> R) (a b : list R) : list R :=
  map (fun p => f (fst p) (snd p)) (combine a b).

(** [a + b] and [a.mul(b)]. *)
Definition mat_add (a b : cv.Mat) : cv.Mat :=
  map (fun p => zip_with Rplus (fst p) (snd p)) (combine a b).



(** [cv::minMaxLoc(m, NULL, &pv, NULL, &pi)]: the maximum and the first place,
    in row-major order, where it is found; [(0, (-1,-1))] on an empty
    matrix. *)
Definition indexed (m : cv.Mat) : list (nat * nat * R) :=
  concat (map (fun ir =>
                 map (fun jv => (fst ir, fst jv, snd jv))
                     (combine (seq 0 (length (snd ir))) (snd ir)))
              (combine (seq 0 (length m)) m)).

Definition max_step (best : option (nat * nat * R)) (e : nat * nat * R)
  : option (nat * nat * R) :=
  match best with
  | None => Some e
  | Some b => if Rltb (snd b) (snd e) then Some e else best
  end.

Definition minMaxLoc (m : cv.Mat) : R * cv.Point :=
  match fold_left max_step (indexed m) None with
  | None => (0, cv.mkPoint (-1) (-1))
  | Some (i, j, v) => (v, cv.mkPoint (Z.of_nat j) (Z.of_nat i))
  end.

(** ** Reads of the response matrix

    [res.at<float>(row, col)] is unchecked: a read outside the matrix is
    undefined behaviour.  The embedding makes it a fault ([None]) and logs
    every read, so that which elements a function touches can be stated. *)

Definition Reader (A : Type) : Type :=
  list (Z * Z) -> option (A * list (Z * Z)).

Definition ret {A} (a : A) : Reader A := fun log => Some (a, log).

Definition bind {A B} (m : Reader A) (f : A -> Reader B) : Reader B :=
  fun log =>
    match m log with
    | Some (a, log') => f a log'
    | None => None
    end.

Notation "x <- m ;; k" := (bind m (fun x => k))
  (at level 61, m at next level, right associativity).

Definition at_ (m : cv.Mat) (row col : Z) : Reader R :=
  fun log =>
    if ((0 <=? row) && (0 <=? col))%Z then
      match nth_error m (Z.to_nat row) with
      | Some r =>
          match nth_error r (Z.to_nat col) with
          | Some v => Some (v, log ++ [(row, col)])
          | None => None
          end
      | None => None
      end
    else None.

(** ** Detection *)

(** [KCFTracker::detect], from the point where the response [res] has been
    computed.  The result is the offset [p] and [peak_value]. *)
Definition detect (res : cv.Mat) : Reader (R * R * R) :=
  let pv := fst (minMaxLoc res) in
  let pi := snd (minMaxLoc res) in
  let peak_value := pv in
  let res_cols := Z.of_nat (cv.mat_cols res) in
  let res_rows := Z.of_nat (cv.mat_rows res) in
  p_x <- (if ((0 <? cv.px pi) && (cv.px pi <? res_cols - 1))%Z then
            l <- at_ res (cv.py pi) (cv.px pi - 1) ;;
            r <- at_ res (cv.py pi) (cv.px pi + 1) ;;
            ret (IZR (cv.px pi) + subPixelPeak l peak_value r)
          else ret (IZR (cv.px pi))) ;;
  p_y <- (if ((0 <? cv.py pi) && (cv.py pi <? res_rows - 1))%Z then
            l <- at_ res (cv.py pi - 1) (cv.px pi) ;;
            r <- at_ res (cv.py pi + 1) (cv.px pi) ;;
            ret (IZR (cv.py pi) + subPixelPeak l peak_value r)
          else ret (IZR (cv.py pi))) ;;
  ret (p_x - IZR (Z.quot res_cols 2), p_y - IZR (Z.quot res_rows 2),
       peak_value).

(** [KCFTracker::detect_scale], from the point where [scale_response] has
    been computed: the column of its maximum. *)
Definition detect_scale (scale_response : cv.Mat) : cv.Point :=
  snd (minMaxLoc scale_response).

(** ** Kernel correlation *)






(** ** Cosine windows *)

(** Entry [i] of a window of [n] entries, as all three loops compute it.
    For [n = 1] the code divides 0 by 0; the statements about windows are
    about [n >= 2]. *)
Definition hanning (n : Z) (i : nat) : R :=
  0.5 * (1 - cos (2 * PI * INR i / IZR (n - 1))).

Definition hann_axis (n : Z) : list R :=
  map (hanning n) (seq 0 (Z.to_nat n)).

(** [KCFTracker::createHanningMats]: the new value of [hann]. *)
Definition createHanningMats (t : KCFTracker) : cv.Mat :=
  let '(sp0, sp1, sp2) := size_patch t in
  let hann1t := hann_axis sp1 in
  let hann2t := hann_axis sp0 in
  let hann2d := map (fun a => map (fun b => a * b) hann1t) hann2t in
  if _hogfeatures (cfg t) then repeat (concat hann2d) (Z.to_nat sp2)
  else hann2d.

(** [KCFTracker::createHanningMatsForScale]. *)
Definition createHanningMatsForScale (t : KCFTracker) : list R :=
  hann_axis (n_scales (cfg t)).

(** ** Feature extraction: the geometry *)

(** The [inithann] block of [KCFTracker::getFeatures]: [_scale] and
    [_tmpl_sz].  In fixed-window mode an empty box makes the code divide 0
    by 0; the statements about the template are about a box of at least one
    pixel.  The quotients [padded_w / _scale] and [padded_h / _scale] are
    exact here; computed in [float] such a quotient can fall just short of
    an integer and truncate to the integer below. *)
Definition getFeatures_template (t : KCFTracker) : KCFTracker :=
  let p := cfg t in
  let padded_w := float2int (cv.width (_roi t) * padding p) in
  let padded_h := float2int (cv.height (_roi t) * padding p) in
  let '(s, tw, th) :=
    if (1 <? template_size p)%Z then
      let s := if (padded_h <=? padded_w)%Z
               then IZR padded_w / IZR (template_size p)
               else IZR padded_h / IZR (template_size p) in
      (s, float2int (IZR padded_w / s), float2int (IZR padded_h / s))
    else (1, padded_w, padded_h) in
  let c := cell_size p in
  let sz :=
    if _hogfeatures p then
      ((Z.quot tw (2 * c) * 2 * c + c * 2)%Z,
       (Z.quot th (2 * c) * 2 * c + c * 2)%Z)
    else ((Z.quot tw 2 * 2)%Z, (Z.quot th 2 * 2)%Z) in
  with_template t s sz.

(** The effect of [KCFTracker::getFeatures] on the tracker.  [fhog] is the
    size [(sizeY, sizeX, numFeatures)] the HOG collaborator reports for the
    patch; the gray branch takes the size of the resized patch. *)
Definition getFeatures (t : KCFTracker) (inithann : bool) (fhog : Z * Z * Z)
  : KCFTracker :=
  let t1 := if inithann then getFeatures_template t else t in
  let sp := if _hogfeatures (cfg t1) then fhog
            else (snd (_tmpl_sz t1), fst (_tmpl_sz t1), 1%Z) in
  let t2 := with_size_patch t1 sp in
  if inithann then with_hann t2 (createHanningMats t2) else t2.

(** ** Scale estimation *)

(** [KCFTracker::update_roi]. *)
Definition update_roi (t : KCFTracker) : KCFTracker :=
  let r := _roi t in
  let cx := cv.x r + cv.width r / 2 in
  let cy := cv.y r + cv.height r / 2 in
  let w := IZR (base_width t) * currentScaleFactor t in
  let h := IZR (base_height t) * currentScaleFactor t in
  with_roi t (cv.mkRect2f (cx - w / 2) (cy - h / 2) w h).

(** The table [scaleFactors] of [dsstInit]. *)
Definition scale_table (step : R) (n : Z) : list R :=
  let ceilS := ceilf (IZR n / 2) in
  map (fun i => Rpower step (ceilS - INR i - 1)) (seq 0 (Z.to_nat n)).

(** [KCFTracker::dsstInit]; its last step [train_scale(image, true)] ends
    with [update_roi]. *)
Definition dsstInit (t : KCFTracker) (roi : cv.Rect) (image : cv.Image)
  : KCFTracker :=
  let p := cfg t in
  let bw := cv.width roi in
  let bh := cv.height roi in
  let scale_model_factor :=
    if (scale_max_area p <? bw * bh)%Z
    then sqrt (IZR (scale_max_area p) / IZR (bw * bh))
    else 1 in
  let t1 :=
    mkTracker p (currentScaleFactor t) (_roi t) (_scale t) (_tmpl_sz t)
      (size_patch t) (hann t)
      (createHanningMatsForScale t)
      bw bh
      (scale_table (scale_step p) (n_scales p))
      (float2int (IZR bw * scale_model_factor))
      (float2int (IZR bh * scale_model_factor))
      (Rpower (scale_step p)
         (ceilf (ln (Rmax (5 / IZR bw) (5 / IZR bh) * (1 + scale_padding p))
                 / 0.0086)))
      (Rpower (scale_step p)
         (floorf (ln (Rmin (IZR (cv.rows image) / IZR bh)
                           (IZR (cv.cols image) / IZR bw))
                  / 0.0086))) in
  update_roi t1.

(** *** The scale sample *)

(** State of the loop of [get_scale_sample]: the output [xsf] with its
    number of columns (an empty matrix until it is allocated) and the local
    [totalSize], which has no value until it is assigned. *)
Record ScaleSample : Type := mkSample {
  xsf : cv.Mat;
  xsf_cols : nat;
  totalSize : option nat
}.

Definition set_nth (l : list R) (i : nat) (v : R) : list R :=
  firstn i l ++ v :: skipn (S i) l.

(** [src.copyTo(m.col(i))].  [m.col(i)] throws when [i] is not a column of
    [m]; the copy lands in [m] when the column has the length of [src]. *)
Definition copyTo_col (src : list R) (m : cv.Mat) (m_cols i : nat)
  : option cv.Mat :=
  if (i <? m_cols)%nat then
    if (length src =? cv.mat_rows m)%nat
    then Some (map (fun rv => set_nth (fst rv) i (snd rv)) (combine m src))
    else Some m
  else None.

(** One iteration of the loop over the scales.  [extractImage] stands for
    [RectTools::extractImage] on the current frame and gives the size of the
    patch it cuts; [fhog i] is the feature vector [map[i]->map] the HOG
    collaborator computes for the resized patch.  [None] is a run that does
    not reach the end of the iteration: a read of the unassigned
    [totalSize], a read past the feature vector, or the exception of
    [xsf.col(i)]. *)
Definition scale_sample_step (t : KCFTracker)
    (extractImage : R -> R -> R -> R -> Z * Z) (fhog : nat -> list R)
    (st : ScaleSample) (i : nat) : option ScaleSample :=
  let patch_width := IZR (base_width t) * nth i (scaleFactors t) 0
                     * currentScaleFactor t in
  let patch_height := IZR (base_height t) * nth i (scaleFactors t) 0
                      * currentScaleFactor t in
  let cx := cv.x (_roi t) + cv.width (_roi t) / 2 in
  let cy := cv.y (_roi t) + cv.height (_roi t) / 2 in
  let ssize := extractImage cx cy patch_width patch_height in
  if ((fst ssize <=? 0) || (snd ssize <=? 0))%Z then Some st
  else
    let st1 :=
      if (i =? 0)%nat then
        let n := length (fhog i) in
        let c := Z.to_nat (n_scales (cfg t)) in
        mkSample (mat_init n c (fun _ _ => 0)) c (Some n)
      else st in
    match totalSize st1 with
    | None => None
    | Some n =>
        if (n <=? length (fhog i))%nat then
          let mul := nth i (s_hann t) 0 in
          let FeaturesMap := map (fun v => mul * v) (firstn n (fhog i)) in
          match copyTo_col FeaturesMap (xsf st1) (xsf_cols st1) i with
          | Some m => Some (mkSample m (xsf_cols st1) (totalSize st1))
          | None => None
          end
        else None
    end.

Fixpoint scale_sample_loop (t : KCFTracker)
    (extractImage : R -> R -> R -> R -> Z * Z) (fhog : nat -> list R)
    (st : ScaleSample) (idx : list nat) : option ScaleSample :=
  match idx with
  | [] => Some st
  | i :: rest =>
      match scale_sample_step t extractImage fhog st i with
      | Some st' => scale_sample_loop t extractImage fhog st' rest
      | None => None
      end
  end.

(** [KCFTracker::get_scale_sample], up to the row-wise transform of the
    result, which belongs to the FFT collaborator. *)
Definition get_scale_sample (t : KCFTracker)
    (extractImage : R -> R -> R -> R -> Z * Z) (fhog : nat -> list R)
  : option cv.Mat :=
  match scale_sample_loop t extractImage fhog (mkSample [] 0 None)
          (seq 0 (Z.to_nat (n_scales (cfg t)))) with
  | Some st => Some (xsf st)
  | None => None
  end.

(** ** Initialisation and the per-frame update *)

Inductive outcome (A : Type) : Type :=
| Returned (a : A)
| AssertionFailed (t : KCFTracker).
Arguments Returned {A} a.
Arguments AssertionFailed {A} t.

(** [KCFTracker::init(const cv::Rect &roi, cv::Mat image)].  An assertion
    that fails aborts the program; the tracker as it was at that point is
    kept in the outcome.  [Returned] is the outcome of a run in which
    feature extraction and the scale sample complete; on an empty box the
    program does not get that far, and the statements about the stored box
    are about boxes of positive size. *)
Definition init (t : KCFTracker) (roi : cv.Rect) (image : cv.Image)
    (fhog : Z * Z * Z) : outcome KCFTracker :=
  let t1 := with_roi t (cv.to_Rect2f roi) in
  if ((0 <=? cv.width roi) && (0 <=? cv.height roi))%Z then
    let t2 := getFeatures t1 true fhog in
    Returned (dsstInit t2 roi image)
  else AssertionFailed t1.

(** [KCFTracker::init(const cv::Point pt1, const cv::Point pt2, cv::Mat image)]. *)
Definition init_points (t : KCFTracker) (pt1 pt2 : cv.Point)
    (image : cv.Image) (fhog : Z * Z * Z) : outcome KCFTracker :=
  let targetRect :=
    cv.mkRect (Z.min (cv.px pt1) (cv.px pt2)) (Z.min (cv.py pt1) (cv.py pt2))
              (Z.abs (cv.px pt2 - cv.px pt1)) (Z.abs (cv.py pt2 - cv.py pt1)) in
  let targetRect :=
    cv.rect_and targetRect
      (cv.mkRect 0 0 (cv.cols image) (cv.rows image)) in
  init t targetRect image fhog.

(** What one frame contributes to the geometry: the response [res] that
    [detect] searches, the [scale_response] that [detect_scale] searches, and
    the sizes the HOG collaborator reports in the two calls of
    [getFeatures]. *)
Record Observation : Type := mkObservation {
  response : cv.Mat;
  scale_response : cv.Mat;
  fhog_detect : Z * Z * Z;
  fhog_train : Z * Z * Z
}.

(** The four tests at the top of [update]. *)
Definition clamp_before_detect (r : cv.Rect2f) (image : cv.Image)
  : cv.Rect2f :=
  let r := if Rleb (cv.x r + cv.width r) 0
           then with_x r (- cv.width r + 1) else r in
  let r := if Rleb (cv.y r + cv.height r) 0
           then with_y r (- cv.height r + 1) else r in
  let r := if Rleb (IZR (cv.cols image - 1)) (cv.x r)
           then with_x r (IZR (cv.cols image - 2)) else r in
  let r := if Rleb (IZR (cv.rows image - 1)) (cv.y r)
           then with_y r (IZR (cv.rows image - 2)) else r in
  r.

(** The four tests that follow the translation step and, again, the scale
    step. *)
Definition clamp_to_frame (r : cv.Rect2f) (image : cv.Image) : cv.Rect2f :=
  let r := if Rleb (IZR (cv.cols image - 1)) (cv.x r)
           then with_x r (IZR (cv.cols image - 1)) else r in
  let r := if Rleb (IZR (cv.rows image - 1)) (cv.y r)
           then with_y r (IZR (cv.rows image - 1)) else r in
  let r := if Rleb (cv.x r + cv.width r) 0
           then with_x r (- cv.width r + 2) else r in
  let r := if Rleb (cv.y r + cv.height r) 0
           then with_y r (- cv.height r + 2) else r in
  r.

(** [scaleFactors[i]]: an unchecked read of the table. *)
Definition scaleFactors_at (t : KCFTracker) (i : Z) : option R :=
  if (0 <=? i)%Z then nth_error (scaleFactors t) (Z.to_nat i) else None.

(** The scale step of [update]: the new [currentScaleFactor]. *)
Definition update_scale (t : KCFTracker) (factor : R) : KCFTracker :=
  let c := currentScaleFactor t * factor in
  let c := if Rltb c (min_scale_factor t) then min_scale_factor t else c in
  with_currentScaleFactor t c.

(** [KCFTracker::update].  [None] is a run that does not return: a read
    outside [res] or [scaleFactors], or the failure of the assertion on the
    box size.  [detect_scale] and [train_scale] call [get_scale_sample];
    its result reaches the box only through [scale_response], and [Some] is
    the result of a run in which both calls complete.  The box returned is
    [_roi] converted to a [cv::Rect]. *)
Definition update (t : KCFTracker) (image : cv.Image) (obs : Observation)
  : option (cv.Rect * KCFTracker) :=
  let t := with_roi t (clamp_before_detect (_roi t) image) in
  let cx := cv.x (_roi t) + cv.width (_roi t) / 2 in
  let cy := cv.y (_roi t) + cv.height (_roi t) / 2 in
  let t := getFeatures t false (fhog_detect obs) in
  match detect (response obs) [] with
  | None => None
  | Some (res_x, res_y, peak_value, _) =>
      let c := cell_size (cfg t) in
      let nx := cx - cv.width (_roi t) / 2
                + res_x * IZR c * _scale t * currentScaleFactor t in
      let ny := cy - cv.height (_roi t) / 2
                + res_y * IZR c * _scale t * currentScaleFactor t in
      let r := cv.mkRect2f nx ny (cv.width (_roi t)) (cv.height (_roi t)) in
      let t := with_roi t (clamp_to_frame r image) in
      let scale_pi := detect_scale (scale_response obs) in
      match scaleFactors_at t (cv.px scale_pi) with
      | None => None
      | Some factor =>
          let t := update_scale t factor in
          let t := update_roi t in                       (* train_scale *)
          let t := with_roi t (clamp_to_frame (_roi t) image) in
          if Rleb 0 (cv.width (_roi t)) && Rleb 0 (cv.height (_roi t)) then
            let t := getFeatures t false (fhog_train obs) in
            Some (cv.to_Rect (_roi t), t)
          else None
      end
  end.

(** ** Regression targets *)

(** [KCFTracker::createGaussianPeak]: the matrix [res] of [float]s that the
    function hands to the forward transform. *)
Definition createGaussianPeak (t : KCFTracker) (sizey sizex : Z) : cv.Mat :=
  let syh := Z.quot sizey 2 in
  let sxh := Z.quot sizex 2 in
  let output_sigma :=
    sqrt (IZR sizex * IZR sizey) / padding (cfg t)
    * output_sigma_factor (cfg t) in
  let mult := -0.5 / (output_sigma * output_sigma) in
  mat_init (Z.to_nat sizey) (Z.to_nat sizex)
    (fun i j =>
       let ih := (Z.of_nat i - syh)%Z in
       let jh := (Z.of_nat j - sxh)%Z in
       exp_f32 (mult * IZR (ih * ih + jh * jh))).

(** [KCFTracker::computeYsf]: the row [res] of [float]s that the function
    hands to the forward transform. *)
Definition computeYsf (t : KCFTracker) : list R :=
  let n := n_scales (cfg t) in
  let s := IZR n / sqrt (IZR n) * scale_sigma_factor (cfg t) in
  let scale_sigma2 := s * s in
  let ceilS := ceilf (IZR n / 2) in
  map (fun i => exp_f32 (- 0.5 * (INR i + 1 - ceilS) ^ 2 / scale_sigma2))
      (seq 0 (Z.to_nat n)).

(** ** Model adaptation *)

(** [c * m] for a scalar [c]. *)
Definition mat_scale (c : R) (m : cv.Mat) : cv.Mat := map (map (Rmult c)) m.

(** The template update of [KCFTracker::train]:
    [(1 - train_interp_factor) * _tmpl + train_interp_factor * x]. *)
Definition train_tmpl (_tmpl x : cv.Mat) (train_interp_factor : R) : cv.Mat :=
  mat_add (mat_scale (1 - train_interp_factor) _tmpl)
          (mat_scale train_interp_factor x).

(** [cv::addWeighted(src1, alpha, src2, beta, gamma, dst)]. *)
Definition addWeighted (src1 : cv.Mat) (alpha : R) (src2 : cv.Mat)
    (beta gamma : R) : cv.Mat :=
  map (fun p => zip_with (fun a b => a * alpha + b * beta + gamma)
                         (fst p) (snd p))
      (combine src1 src2).

(** A complex matrix, as pairs of real and imaginary part. *)
Definition Spectrum : Type := list (list (R * R)).

(** [cv::reduce(m, dst, 0, CV_REDUCE_SUM)]: the row of the column sums of a
    matrix with [n] columns. *)
Definition reduce_sum (n : nat) (m : cv.Mat) : list R :=
  map (fun j => Rsum (map (fun row => nth j row 0) m)) (seq 0 n).

(** The denominator path of [KCFTracker::train_scale]: the real part of
    [xsf] times its conjugate, summed over the feature rows, replaces
    [sf_den] on the first call and is blended into it afterwards. *)
Definition new_sf_den (n : nat) (xsf : Spectrum) : cv.Mat :=
  [reduce_sum n
     (map (map (fun z => fst z * fst z + snd z * snd z)) xsf)].

Definition train_scale_den (t : KCFTracker) (sf_den : cv.Mat)
    (xsf : Spectrum) (ini : bool) : cv.Mat :=
  let n := Z.to_nat (n_scales (cfg t)) in
  if ini then new_sf_den n xsf
  else addWeighted sf_den (1 - scale_lr (cfg t)) (new_sf_den n xsf)
                   (scale_lr (cfg t)) 0.

(** ** Well-formed inputs *)

(** [m] has [h] rows of [w] values each. *)
Definition has_dims (m : cv.Mat) (h w : nat) : bool :=
  (length m =? h)%nat && forallb (fun r => (length r =? w)%nat) m.

(** A matrix whose rows all have the length of the first one. *)
Definition rectangular (m : cv.Mat) : bool :=
  has_dims m (cv.mat_rows m) (cv.mat_cols m).

(** A feature map as [getFeatures] produces it for the current
    [size_patch]: [size_patch[2]] rows of [size_patch[0] * size_patch[1]]
    values with HOG features, [size_patch[0]] rows of [size_patch[1]] values
    with gray features. *)
Definition valid_features (t : KCFTracker) (x : cv.Mat) : bool :=
  let sp0 := fst (fst (size_patch t)) in
  let sp1 := snd (fst (size_patch t)) in
  let sp2 := snd (size_patch t) in
  ((0 <? sp0) && (0 <? sp1) && (0 <? sp2))%Z &&
  (if _hogfeatures (cfg t)
   then has_dims x (Z.to_nat sp2) (Z.to_nat sp0 * Z.to_nat sp1)
   else has_dims x (Z.to_nat sp0) (Z.to_nat sp1)).

(** The size of the patch [get_scale_sample] cuts for scale index [i], and
    the test that makes the loop skip it. *)
Definition scale_patch_size (t : KCFTracker)
    (extractImage : R -> R -> R -> R -> Z * Z) (i : nat) : Z * Z :=
  extractImage
    (cv.x (_roi t) + cv.width (_roi t) / 2)
    (cv.y (_roi t) + cv.height (_roi t) / 2)
    (IZR (base_width t) * nth i (scaleFactors t) 0 * currentScaleFactor t)
    (IZR (base_height t) * nth i (scaleFactors t) 0 * currentScaleFactor t).

Definition degenerate (ssize : Z * Z) : bool :=
  ((fst ssize <=? 0) || (snd ssize <=? 0))%Z.





(** Rectangles of [int]s and sizes that the [float] arithmetic of the box
    handles without rounding: with magnitudes up to [2^22] every field, and
    every centre [x + width / 2], is a [float]. *)
Definition float_rect (r : cv.Rect) : Prop :=
  (Z.abs (cv.x r) <= 4194304 /\ Z.abs (cv.y r) <= 4194304 /\
   cv.width r <= 4194304 /\ cv.height r <= 4194304)%Z.

(** ** Concrete inputs *)

(** A fresh tracker object before its constructor runs. *)
Definition fresh : KCFTracker :=
  mkTracker
    (mkParams 0 0 0 0 0 0 0 0 0 0 0 0 0 0 0 false false)
    0 (cv.mkRect2f 0 0 0 0) 0 (0, 0)%Z (0, 0, 0)%Z [] [] 0 0 [] 0 0 0 0.

(** An [h] x [w] response that is 1 at row [i], column [j] and 0
    elsewhere. *)
Definition peak_response (h w i j : nat) : cv.Mat :=
  mat_init h w (fun a b => if ((a =? i) && (b =? j))%nat then 1 else 0).

(** A frame whose translation response peaks at the centre (no motion) and
    whose scale response peaks at index 0, the largest scale. *)
Definition grow_observation : Observation :=
  mkObservation (peak_response 24 24 12 12) (peak_response 1 33 0 0)
                (24, 24, 31)%Z (24, 24, 31)%Z.

(** The tracker [init] returns for a 40 x 40 box in an 85 x 85 frame. *)
Definition sample_tracker : KCFTracker :=
  dsstInit
    (getFeatures
       (with_roi (KCFTracker_new fresh true true true false)
                 (cv.to_Rect2f (cv.mkRect 30 30 40 40)))
       true (24, 24, 31)%Z)
    (cv.mkRect 30 30 40 40) (cv.mkImage 85 85).

(** An extraction that yields no patch when the requested width exceeds
    [limit], and the requested size otherwise. *)
Definition extract_within (limit : R) (cx cy patch_width patch_height : R)
  : Z * Z :=
  if Rltb limit patch_width then (0, 0)%Z
  else (float2int patch_width, float2int patch_height).

(** An extraction that cuts a patch of 32 x 32 pixels for every request. *)
Definition extract_fixed (cx cy patch_width patch_height : R) : Z * Z :=
  (32, 32)%Z.

(** Feature vectors of [n] values, the same for every scale. *)
Definition constant_fhog (n : nat) (i : nat) : list R := repeat 1 n.

Definition gray_patch : cv.Mat := [[0.5; -0.25]; [0; 0.25]].
Definition hog_tracker : KCFTracker :=
  with_size_patch (KCFTracker_new fresh true true true false) (1, 2, 2)%Z.

(** A HOG tracker with two channels of 2 x 3 cells. *)
Definition hog_tracker_2x3 : KCFTracker :=
  with_size_patch (KCFTracker_new fresh true true true false) (2, 3, 2)%Z.

(** A response whose maximum is in the top right corner. *)
Definition corner_response : cv.Mat := [[0.1; 0.9]; [0.2; 0.3]].

(** A frame without motion and without change of scale: both responses peak
    at their centre. *)
Definition still_observation : Observation :=
  mkObservation (peak_response 24 24 12 12) (peak_response 1 33 0 16)
                (24, 24, 31)%Z (24, 24, 31)%Z.

(** A frame in which the target has moved 11 cells to the left, without
    change of scale. *)
Definition drift_observation : Observation :=
  mkObservation (peak_response 24 24 12 1) (peak_response 1 33 0 16)
                (24, 24, 31)%Z (24, 24, 31)%Z.


(** * Properties *)

(** ** Comparisons and truncation *)

Lemma Rltb_true (a b : R) : Rltb a b = true <-> a < b.
Proof. unfold Rltb; destruct (Rlt_dec a b); split; intros; try easy. Qed.

Lemma Rltb_false (a b : R) : Rltb a b = false <-> b <= a.
Proof.
  unfold Rltb; destruct (Rlt_dec a b); split; intros; try easy; lra.
Qed.

Lemma Rleb_true (a b : R) : Rleb a b = true <-> a <= b.
Proof. unfold Rleb; destruct (Rle_dec a b); split; intros; try easy. Qed.

Lemma Rleb_false (a b : R) : Rleb a b = false <-> b < a.
Proof.
  unfold Rleb; destruct (Rle_dec a b); split; intros; try easy; lra.
Qed.

Lemma Reqb_true (a b : R) : Reqb a b = true <-> a = b.
Proof. unfold Reqb; destruct (Req_dec_T a b); split; intros; try easy. Qed.

Lemma Reqb_false (a b : R) : Reqb a b = false <-> a <> b.
Proof. unfold Reqb; destruct (Req_dec_T a b); split; intros; try easy. Qed.

Lemma Zceil_eq (z : Z) (r : R) : IZR z - 1 < r <= IZR z -> Zceil r = z.
Proof.
  intros H. unfold Zceil.
  rewrite (Zfloor_eq (- z) (- r)); [lia |].
  rewrite opp_IZR. lra.
Qed.

Lemma float2int_IZR (z : Z) : float2int (IZR z) = z.
Proof.
  unfold float2int. destruct (Rle_dec 0 (IZR z)).
  - apply ZfloorZ.
  - apply Zceil_eq. lra.
Qed.

Lemma float2int_nonneg (r : R) : -1 < r -> (0 <= float2int r)%Z.
Proof.
  intros H. unfold float2int. destruct (Rle_dec 0 r) as [Hr | Hr].
  - apply Zfloor_lub. exact Hr.
  - assert (Hc : Zceil r = 0%Z) by (apply Zceil_eq; lra).
    rewrite Hc. lia.
Qed.

(** Truncation of a value given between two consecutive integers. *)
Lemma float2int_pos (z : Z) (r : R) :
  (0 <= z)%Z -> IZR z <= r < IZR z + 1 -> float2int r = z.
Proof.
  intros Hz H. unfold float2int.
  assert (0 <= IZR z) by (apply IZR_le; exact Hz).
  destruct (Rle_dec 0 r); [| lra].
  apply Zfloor_eq. exact H.
Qed.

(** ** Sub-pixel peak *)

Lemma subPixelPeak_flat (left center right : R) :
  2 * center - right - left = 0 -> subPixelPeak left center right = 0.
Proof.
  intros H. unfold subPixelPeak.
  assert (E : Reqb (2 * center - right - left) 0 = true)
    by (apply Reqb_true; exact H).
  rewrite E. reflexivity.
Qed.

Lemma subPixelPeak_parabola (left center right : R) :
  2 * center - right - left <> 0 ->
  subPixelPeak left center right
  = 0.5 * (right - left) / (2 * center - right - left).
Proof.
  intros H. unfold subPixelPeak.
  assert (E : Reqb (2 * center - right - left) 0 = false)
    by (apply Reqb_false; exact H).
  rewrite E. reflexivity.
Qed.

(** *** In floating-point arithmetic *)





(** The correction of a strict peak stays within half a cell. *)
Lemma subPixelPeak_bounded (left center right : R) :
  left <= center -> right <= center -> left < center \/ right < center ->
  -0.5 <= subPixelPeak left center right <= 0.5.
Proof.
  intros Hl Hr Hs.
  assert (Hd : 0 < 2 * center - right - left) by lra.
  rewrite subPixelPeak_parabola by lra.
  split.
  - apply Rmult_le_reg_r with (2 * center - right - left); [exact Hd |].
    unfold Rdiv. rewrite Rmult_assoc, Rinv_l by lra. lra.
  - apply Rmult_le_reg_r with (2 * center - right - left); [exact Hd |].
    unfold Rdiv. rewrite Rmult_assoc, Rinv_l by lra. lra.
Qed.

(** ** Rounding to the nearest integer *)

Lemma cvRound_bound (r : R) : - 0.5 <= IZR (cv.cvRound r) - r <= 0.5.
Proof.
  unfold cv.cvRound. pose proof (Zfloor_bound r) as [B1 B2].
  destruct (Rltb (r - IZR (Zfloor r)) 0.5) eqn:E1.
  - apply Rltb_true in E1. lra.
  - apply Rltb_false in E1.
    destruct (Rltb 0.5 (r - IZR (Zfloor r))) eqn:E2.
    + rewrite plus_IZR. lra.
    + apply Rltb_false in E2. destruct (Z.even (Zfloor r)).
      * lra.
      * rewrite plus_IZR. lra.
Qed.

Lemma cvRound_eq (z : Z) (r : R) :
  IZR z - 0.5 < r < IZR z + 0.5 -> cv.cvRound r = z.
Proof.
  intros H. pose proof (cvRound_bound r) as B.
  assert (H1 : (z - 1 < cv.cvRound r)%Z).
  { apply lt_IZR. rewrite minus_IZR. lra. }
  assert (H2 : (cv.cvRound r < z + 1)%Z).
  { apply lt_IZR. rewrite plus_IZR. lra. }
  lia.
Qed.

Lemma cvRound_IZR (z : Z) : cv.cvRound (IZR z) = z.
Proof. apply cvRound_eq. lra. Qed.

Lemma cvRound_le (z : Z) (r : R) : r <= IZR z -> (cv.cvRound r <= z)%Z.
Proof.
  intros H. pose proof (cvRound_bound r) as B.
  assert (H2 : (cv.cvRound r < z + 1)%Z).
  { apply lt_IZR. rewrite plus_IZR. lra. }
  lia.
Qed.

(** ** Powers, logarithms and rounding to integers *)

Lemma Zceil_le (r : R) (n : Z) : r <= IZR n -> (Zceil r <= n)%Z.
Proof.
  intros H. unfold Zceil.
  assert (- n <= Zfloor (- r))%Z; [| lia].
  apply Zfloor_lub. rewrite opp_IZR. lra.
Qed.

Lemma Rpower_neg_nat (x : R) (n : nat) :
  0 < x -> Rpower x (- INR n) = / x ^ n.
Proof. intros H. rewrite Rpower_Ropp, Rpower_pow by exact H. reflexivity. Qed.


Lemma Rpower_le_1 (b e : R) : 1 <= b -> e <= 0 -> Rpower b e <= 1.
Proof.
  intros Hb He. apply Rle_trans with (Rpower b 0).
  - apply Rle_Rpower; assumption.
  - rewrite Rpower_O by lra. lra.
Qed.




Lemma ln_nonpos (x : R) : 0 < x <= 1 -> ln x <= 0.
Proof.
  intros [H0 [H | ->]]; [| rewrite ln_1; lra].
  rewrite <- ln_1. left. apply ln_increasing; lra.
Qed.


Lemma ceilf_nonpos (x : R) : x <= 0 -> ceilf x <= 0.
Proof.
  intros H. unfold ceilf. apply IZR_le. apply Zceil_le. exact H.
Qed.






(** ** Cosine windows *)

Lemma nth_hann_axis (n : Z) (i : nat) (d : R) :
  (i < Z.to_nat n)%nat -> nth i (hann_axis n) d = hanning n i.
Proof.
  intros H. unfold hann_axis.
  rewrite (nth_indep _ d (hanning n 0))
    by (rewrite length_map, length_seq; exact H).
  rewrite (map_nth (hanning n) (seq 0 (Z.to_nat n)) 0%nat i).
  rewrite seq_nth by exact H. reflexivity.
Qed.

Lemma hanning_first (n : Z) : hanning n 0 = 0.
Proof.
  unfold hanning. simpl INR.
  replace (2 * PI * 0 / IZR (n - 1)) with 0 by (unfold Rdiv; ring).
  rewrite cos_0. lra.
Qed.

Lemma hanning_last (n : Z) : (2 <= n)%Z -> hanning n (Z.to_nat (n - 1)) = 0.
Proof.
  intros H. unfold hanning.
  rewrite INR_IZR_INZ, Z2Nat.id by lia.
  assert (Hn : IZR (n - 1) <> 0) by (apply not_0_IZR; lia).
  replace (2 * PI * IZR (n - 1) / IZR (n - 1)) with (2 * PI)
    by (field; exact Hn).
  rewrite cos_2PI. lra.
Qed.

Lemma hanning_center_odd (n : Z) :
  (3 <= n)%Z -> Z.odd n = true -> hanning n (Z.to_nat ((n - 1) / 2)) = 1.
Proof.
  intros H Ho. apply Z.odd_spec in Ho. destruct Ho as [k Hk]. subst n.
  replace (2 * k + 1 - 1)%Z with (k * 2)%Z by lia.
  rewrite Z.div_mul by lia.
  unfold hanning. rewrite INR_IZR_INZ, Z2Nat.id by lia.
  replace (2 * k + 1 - 1)%Z with (k * 2)%Z by lia.
  rewrite mult_IZR.
  assert (Hn : IZR k <> 0) by (apply not_0_IZR; lia).
  replace (2 * PI * IZR k / (IZR k * 2)) with PI by (field; exact Hn).
  rewrite cos_PI. lra.
Qed.

(** C5 (amended).  For every window size [n >= 2] the cosine window of an
    axis is 0 at both end indices, and for every odd [n >= 3] it is 1 at
    the centre index [(n-1)/2]. *)
Theorem hann_axis_ends_and_center (n : Z) :
  (2 <= n)%Z ->
  nth 0 (hann_axis n) 0 = 0 /\
  nth (Z.to_nat (n - 1)) (hann_axis n) 0 = 0 /\
  (Z.odd n = true -> nth (Z.to_nat ((n - 1) / 2)) (hann_axis n) 0 = 1).
Proof.
  intros Hn. repeat split.
  - rewrite nth_hann_axis by lia. apply hanning_first.
  - rewrite nth_hann_axis by lia. apply hanning_last. exact Hn.
  - intros Ho.
    assert (3 <= n)%Z.
    { destruct (Z.eq_dec n 2) as [-> | ]; [discriminate | lia]. }
    rewrite nth_hann_axis.
    + apply hanning_center_odd; assumption.
    + apply Z2Nat.inj_lt; try lia.
      * apply Z.div_pos; lia.
      * apply Z.div_lt_upper_bound; lia.
Qed.

Lemma hann_axis_ends_and_center_witness :
  nth 0 (hann_axis 33) 0 = 0 /\
  nth 32 (hann_axis 33) 0 = 0 /\
  nth 16 (hann_axis 33) 0 = 1.
Proof.
  destruct (hann_axis_ends_and_center 33 ltac:(lia)) as (H0 & H1 & H2).
  repeat split.
  - exact H0.
  - exact H1.
  - exact (H2 eq_refl).
Defined.

(** C5, as stated, fails on the smallest window: with [n = 2] both entries
    are 0, so neither candidate for the centre holds 1. *)
Lemma hann_axis_2_center_is_not_one :
  nth (Z.to_nat (2 / 2)) (hann_axis 2) 0 <> 1 /\
  nth (Z.to_nat ((2 - 1) / 2)) (hann_axis 2) 0 <> 1.
Proof.
  change (Z.to_nat (2 / 2)) with 1%nat.
  change (Z.to_nat ((2 - 1) / 2)) with 0%nat.
  rewrite !nth_hann_axis by (simpl; lia).
  rewrite hanning_first.
  change 1%nat with (Z.to_nat (2 - 1)).
  rewrite hanning_last by lia.
  split; lra.
Qed.

(** The windows of the tracker are built from [hann_axis]. *)
Lemma createHanningMatsForScale_new (mem : KCFTracker) (hog fw lab : bool) :
  createHanningMatsForScale (KCFTracker_new mem hog fw true lab)
  = hann_axis 33.
Proof. reflexivity. Qed.

Lemma createHanningMats_gray (t : KCFTracker) (i j : nat) :
  _hogfeatures (cfg t) = false ->
  (i < Z.to_nat (fst (fst (size_patch t))))%nat ->
  (j < Z.to_nat (snd (fst (size_patch t))))%nat ->
  mat_get (createHanningMats t) i j
  = hanning (fst (fst (size_patch t))) i * hanning (snd (fst (size_patch t))) j.
Proof.
  intros Hg Hi Hj. unfold createHanningMats, mat_get.
  destruct (size_patch t) as [[sp0 sp1] sp2]. simpl in *. rewrite Hg.
  rewrite (nth_indep _ [] (map (fun b => hanning sp0 0 * b) (hann_axis sp1)))
    by (rewrite length_map; unfold hann_axis;
        rewrite length_map, length_seq; exact Hi).
  rewrite (map_nth (fun a => map (fun b => a * b) (hann_axis sp1))
                   (hann_axis sp0) (hanning sp0 0) i).
  rewrite (nth_indep _ 0 (nth i (hann_axis sp0) (hanning sp0 0) * hanning sp1 0))
    by (rewrite length_map; unfold hann_axis;
        rewrite length_map, length_seq; exact Hj).
  rewrite (map_nth (fun b => nth i (hann_axis sp0) (hanning sp0 0) * b)
                   (hann_axis sp1) (hanning sp1 0) j).
  rewrite !nth_hann_axis by assumption. reflexivity.
Qed.

(** ** Kernel correlation *)



Lemma exp_le_1 (a : R) : a <= 0 -> exp a <= 1.
Proof.
  intros [Ha | ->].
  - rewrite <- exp_0. left. apply exp_increasing. exact Ha.
  - rewrite exp_0. lra.
Qed.


(** ** Exponentials stored in [float]s *)

Lemma exp_le (x y : R) : x <= y -> exp x <= exp y.
Proof.
  intros [H | ->]; [left; apply exp_increasing; exact H | right; reflexivity].
Qed.

Lemma exp_times_8 (a : R) : exp (8 * a) = exp a ^ 8.
Proof.
  replace (8 * a) with (((a + a) + (a + a)) + ((a + a) + (a + a))) by ring.
  rewrite !exp_plus. ring.
Qed.

(** [ln 2] is about 0.693. *)
Lemma ln_2_bounds : 8 / 15 < ln 2 < 11 / 15.
Proof.
  split.
  - apply exp_lt_inv. rewrite exp_ln by lra.
    assert (H : / 2 < exp (- (8 / 15))).
    { replace (- (8 / 15)) with (8 * (- / 15)) by lra.
      rewrite exp_times_8.
      apply Rlt_le_trans with ((14 / 15) ^ 8); [simpl; lra |].
      apply pow_incr. split; [lra |].
      pose proof (exp_ineq1_le (- / 15)). lra. }
    rewrite exp_Ropp in H.
    destruct (Rlt_le_dec (exp (8 / 15)) 2) as [L | L]; [exact L |].
    apply Rinv_le_contravar in L; lra.
  - apply exp_lt_inv. rewrite exp_ln by lra.
    replace (11 / 15) with (8 * (11 / 120)) by lra.
    rewrite exp_times_8.
    apply Rlt_le_trans with ((131 / 120) ^ 8); [simpl; lra |].
    apply pow_incr. split; [lra |].
    pose proof (exp_ineq1_le (11 / 120)). lra.
Qed.

(** [2 ^ -150], half the smallest positive [float]. *)
Lemma half_min_float : / 2 ^ 150 = exp (- (150 * ln 2)).
Proof.
  rewrite exp_Ropp. f_equal.
  rewrite <- (Rpower_pow 150 2) by lra.
  unfold Rpower. f_equal. rewrite INR_IZR_INZ. reflexivity.
Qed.


Lemma exp_f32_exp (v : R) : -80 <= v -> exp_f32 v = exp v.
Proof.
  intros H. unfold exp_f32.
  assert (E : Rleb (exp v) (/ 2 ^ 150) = false).
  { apply Rleb_false. rewrite half_min_float. apply exp_increasing.
    pose proof ln_2_bounds. lra. }
  rewrite E. reflexivity.
Qed.

Lemma exp_f32_range (v : R) : v <= 0 -> 0 <= exp_f32 v <= 1.
Proof.
  intros Hv. unfold exp_f32. destruct (Rleb (exp v) (/ 2 ^ 150)); [lra |].
  split; [left; apply exp_pos |].
  rewrite <- exp_0. apply exp_le. exact Hv.
Qed.

Lemma exp_f32_0 : exp_f32 0 = 1.
Proof. rewrite exp_f32_exp by lra. apply exp_0. Qed.


(** *** Sums and matrices *)



Lemma nth_map_in {A B} (f : A -> B) (l : list A) (d : B) (d' : A) (i : nat) :
  (i < length l)%nat -> nth i (map f l) d = f (nth i l d').
Proof.
  revert i. induction l as [| v l IH]; intros i Hi; simpl in *; [lia |].
  destruct i as [| i]; [reflexivity |]. apply IH. lia.
Qed.





Lemma has_dims_spec (m : cv.Mat) (h w : nat) :
  has_dims m h w = true <->
  length m = h /\ forall r, In r m -> length r = w.
Proof.
  unfold has_dims. rewrite andb_true_iff, Nat.eqb_eq, forallb_forall.
  split; intros [H1 H2]; split; try exact H1; intros r Hr.
  - apply Nat.eqb_eq, H2, Hr.
  - apply Nat.eqb_eq, H2, Hr.
Qed.

Lemma has_dims_nth (m : cv.Mat) (h w i : nat) :
  has_dims m h w = true -> (i < h)%nat -> length (nth i m []) = w.
Proof.
  intros H Hi. apply has_dims_spec in H. destruct H as [Hl Hr].
  apply Hr, nth_In. lia.
Qed.

Lemma has_dims_cols (m : cv.Mat) (h w : nat) :
  has_dims m h w = true -> (0 < h)%nat -> cv.mat_cols m = w.
Proof.
  intros H Hh. pose proof (has_dims_nth m h w 0 H Hh) as E.
  apply has_dims_spec in H. destruct m; simpl in *; [lia | exact E].
Qed.

Lemma length_mat_init (h w : nat) (f : nat -> nat -> R) :
  length (mat_init h w f) = h.
Proof. unfold mat_init. rewrite length_map, length_seq. reflexivity. Qed.

Lemma nth_mat_init (h w : nat) (f : nat -> nat -> R) (i : nat) :
  (i < h)%nat -> nth i (mat_init h w f) [] = map (f i) (seq 0 w).
Proof.
  intros Hi. unfold mat_init.
  rewrite (nth_indep _ [] (map (f 0%nat) (seq 0 w)))
    by (rewrite length_map, length_seq; exact Hi).
  rewrite (map_nth (fun i => map (f i) (seq 0 w)) (seq 0 h) 0%nat i).
  rewrite seq_nth by exact Hi. reflexivity.
Qed.

Lemma mat_get_init (h w : nat) (f : nat -> nat -> R) (i j : nat) :
  (i < h)%nat -> (j < w)%nat -> mat_get (mat_init h w f) i j = f i j.
Proof.
  intros Hi Hj. unfold mat_get. rewrite nth_mat_init by exact Hi.
  rewrite (nth_indep _ 0 (f i 0%nat))
    by (rewrite length_map, length_seq; exact Hj).
  rewrite (map_nth (f i) (seq 0 w) 0%nat j).
  rewrite seq_nth by exact Hj. reflexivity.
Qed.

Lemma has_dims_init (h w : nat) (f : nat -> nat -> R) :
  has_dims (mat_init h w f) h w = true.
Proof.
  apply has_dims_spec. split; [apply length_mat_init |].
  intros r Hr. unfold mat_init in Hr. apply in_map_iff in Hr.
  destruct Hr as (i & <- & _). rewrite length_map, length_seq. reflexivity.
Qed.

Lemma mat_cols_init (h w : nat) (f : nat -> nat -> R) :
  (0 < h)%nat -> cv.mat_cols (mat_init h w f) = w.
Proof. intros H. apply (has_dims_cols _ h w (has_dims_init h w f) H). Qed.

Lemma mat_get_map_map (f : R -> R) (m : cv.Mat) (i j : nat) :
  (i < length m)%nat -> (j < length (nth i m []))%nat ->
  mat_get (map (map f) m) i j = f (mat_get m i j).
Proof.
  intros Hi Hj. unfold mat_get.
  rewrite (nth_indep _ [] (map f [])) by (rewrite length_map; exact Hi).
  rewrite (map_nth (map f) m [] i).
  rewrite (nth_indep _ 0 (f 0)) by (rewrite length_map; exact Hj).
  apply (map_nth f (nth i m []) 0 j).
Qed.

Lemma nth_zip_with (f : R -> R -> R) (a b : list R) (j : nat) :
  (j < length a)%nat -> (j < length b)%nat ->
  nth j (zip_with f a b) 0 = f (nth j a 0) (nth j b 0).
Proof.
  revert b j. induction a as [| u a IH]; intros b j Ha Hb; simpl in *; [lia |].
  destruct b as [| v b]; simpl in *; [lia |].
  destruct j as [| j]; [reflexivity |]. apply IH; lia.
Qed.

Lemma mat_add_dims (a b : cv.Mat) (h w : nat) :
  has_dims a h w = true -> has_dims b h w = true ->
  has_dims (mat_add a b) h w = true.
Proof.
  intros Ha Hb. apply has_dims_spec in Ha, Hb. destruct Ha as [La Ra], Hb as [Lb Rb].
  apply has_dims_spec. unfold mat_add. split.
  - rewrite length_map, length_combine. lia.
  - intros r Hr. apply in_map_iff in Hr. destruct Hr as ([ra rb] & <- & Hin).
    unfold zip_with. simpl. rewrite length_map, length_combine.
    rewrite (Ra ra), (Rb rb); [lia | |].
    + eapply in_combine_r; exact Hin.
    + eapply in_combine_l; exact Hin.
Qed.

Lemma mat_get_add (a b : cv.Mat) (h w i j : nat) :
  has_dims a h w = true -> has_dims b h w = true ->
  (i < h)%nat -> (j < w)%nat ->
  mat_get (mat_add a b) i j = mat_get a i j + mat_get b i j.
Proof.
  intros Ha Hb Hi Hj.
  pose proof (has_dims_nth a h w i Ha Hi) as Wa.
  pose proof (has_dims_nth b h w i Hb Hi) as Wb.
  apply has_dims_spec in Ha, Hb. destruct Ha as [La _], Hb as [Lb _].
  unfold mat_get, mat_add.
  rewrite (nth_map_in _ _ [] (@nil R, @nil R))
    by (rewrite length_combine; lia).
  rewrite combine_nth by lia. simpl.
  apply nth_zip_with; lia.
Qed.

(** *** Correlation of a plane with itself *)















(** ** Detection *)

Lemma in_combine_seq {A} (l : list A) (s i : nat) (a : A) :
  In (i, a) (combine (seq s (length l)) l) ->
  (s <= i)%nat /\ nth_error l (i - s) = Some a.
Proof.
  revert s. induction l as [| b l IH]; intros s H; simpl in H; [easy |].
  destruct H as [H | H].
  - inversion H; subst. rewrite Nat.sub_diag. split; [lia | reflexivity].
  - apply IH in H. destruct H as [Hs Hn]. split; [lia |].
    replace (i - s)%nat with (S (i - S s)) by lia. exact Hn.
Qed.

(** Every entry of [indexed m] is an element of [m] with its place. *)
Lemma indexed_sound (m : cv.Mat) (i j : nat) (v : R) :
  In (i, j, v) (indexed m) ->
  exists row, nth_error m i = Some row /\ nth_error row j = Some v.
Proof.
  unfold indexed. intros H. apply in_concat in H.
  destruct H as (l & Hl & Hin). apply in_map_iff in Hl.
  destruct Hl as ([i' row] & <- & Hrow). simpl in Hin.
  apply in_map_iff in Hin. destruct Hin as ([j' v'] & E & Hv).
  simpl in E. inversion E; subst.
  apply in_combine_seq in Hrow, Hv. rewrite Nat.sub_0_r in *.
  exists row. split; [apply Hrow | apply Hv].
Qed.

Lemma fold_max_step (l : list (nat * nat * R)) (best : option (nat * nat * R)) :
  fold_left max_step l best = best \/
  exists e, In e l /\ fold_left max_step l best = Some e.
Proof.
  revert best. induction l as [| e l IH]; intros best; simpl.
  - left. reflexivity.
  - destruct (IH (max_step best e)) as [H | (e' & Hin & H)].
    + rewrite H. unfold max_step. destruct best as [b |].
      * destruct (Rltb (snd b) (snd e)); [right; exists e; auto | left; auto].
      * right. exists e. auto.
    + right. exists e'. auto.
Qed.

(** The value [minMaxLoc] returns is not below any element. *)
Lemma fold_max_step_upper (l : list (nat * nat * R))
    (best : option (nat * nat * R)) (r : nat * nat * R) :
  fold_left max_step l best = Some r ->
  (forall b, best = Some b -> snd b <= snd r) /\
  (forall e, In e l -> snd e <= snd r).
Proof.
  revert best. induction l as [| e l IH]; intros best H; simpl in H.
  - split; [| easy]. intros b ->. inversion H. lra.
  - apply IH in H. destruct H as [Hb Hl]. split.
    + intros b ->. simpl in Hb. destruct (Rltb (snd b) (snd e)) eqn:L.
      * apply Rltb_true in L. specialize (Hb e eq_refl). lra.
      * apply (Hb b eq_refl).
    + intros e' [<- | Hin]; [| apply Hl; exact Hin].
      unfold max_step in Hb. destruct best as [b |].
      * destruct (Rltb (snd b) (snd e)) eqn:L.
        -- apply (Hb e eq_refl).
        -- apply Rltb_false in L. specialize (Hb b eq_refl). lra.
      * apply (Hb e eq_refl).
Qed.

(** [minMaxLoc] returns [(-1,-1)] or the place of an element, with its
    value. *)
Lemma minMaxLoc_sound (m : cv.Mat) :
  minMaxLoc m = (0, cv.mkPoint (-1) (-1)) \/
  exists i j row,
    minMaxLoc m = (mat_get m i j, cv.mkPoint (Z.of_nat j) (Z.of_nat i)) /\
    nth_error m i = Some row /\ (j < length row)%nat.
Proof.
  unfold minMaxLoc.
  destruct (fold_max_step (indexed m) None) as [H | ([[i j] v] & Hin & H)];
    rewrite H.
  - left. reflexivity.
  - right. apply indexed_sound in Hin. destruct Hin as (row & Hr & Hv).
    exists i, j, row. repeat split.
    + unfold mat_get. f_equal.
      rewrite (nth_error_nth _ _ _ Hr). symmetry.
      apply nth_error_nth. exact Hv.
    + exact Hr.
    + apply nth_error_Some. rewrite Hv. discriminate.
Qed.

Lemma rectangular_row (m : cv.Mat) (i : nat) (row : list R) :
  rectangular m = true -> nth_error m i = Some row ->
  length row = cv.mat_cols m.
Proof.
  intros Hr Hn. apply has_dims_spec in Hr. destruct Hr as [_ Hr].
  apply Hr. eapply nth_error_In. exact Hn.
Qed.

Lemma minMaxLoc_range (m : cv.Mat) :
  rectangular m = true ->
  snd (minMaxLoc m) = cv.mkPoint (-1) (-1) \/
  (0 <= cv.px (snd (minMaxLoc m)) < Z.of_nat (cv.mat_cols m) /\
   0 <= cv.py (snd (minMaxLoc m)) < Z.of_nat (cv.mat_rows m))%Z.
Proof.
  intros Hr. destruct (minMaxLoc_sound m) as [H | (i & j & row & H & Hn & Hj)];
    rewrite H; simpl.
  - left. reflexivity.
  - right. rewrite <- (rectangular_row m i row Hr Hn).
    assert (i < length m)%nat by (apply nth_error_Some; rewrite Hn; discriminate).
    unfold cv.mat_rows. lia.
Qed.

(** A read inside a rectangular matrix succeeds and is logged. *)
Lemma at_in_range (m : cv.Mat) (row col : Z) (log : list (Z * Z)) :
  rectangular m = true ->
  (0 <= row < Z.of_nat (cv.mat_rows m))%Z ->
  (0 <= col < Z.of_nat (cv.mat_cols m))%Z ->
  at_ m row col log
  = Some (mat_get m (Z.to_nat row) (Z.to_nat col), log ++ [(row, col)]).
Proof.
  intros Hr Hrow Hcol. unfold at_.
  assert (E : ((0 <=? row) && (0 <=? col))%Z = true).
  { apply andb_true_iff. split; apply Z.leb_le; lia. }
  rewrite E.
  destruct (nth_error m (Z.to_nat row)) as [r |] eqn:Hn.
  - pose proof (rectangular_row m _ r Hr Hn) as Hl.
    destruct (nth_error r (Z.to_nat col)) as [v |] eqn:Hv.
    + unfold mat_get. rewrite (nth_error_nth _ _ _ Hn), (nth_error_nth _ _ _ Hv).
      reflexivity.
    + apply nth_error_None in Hv. lia.
  - apply nth_error_None in Hn. unfold cv.mat_rows in Hrow. lia.
Qed.

(** What [detect] returns and reads on a rectangular response. *)
Lemma detect_run (res : cv.Mat) (log : list (Z * Z)) :
  rectangular res = true ->
  let pi := snd (minMaxLoc res) in
  let pv := fst (minMaxLoc res) in
  let res_cols := Z.of_nat (cv.mat_cols res) in
  let res_rows := Z.of_nat (cv.mat_rows res) in
  let ix := ((0 <? cv.px pi) && (cv.px pi <? res_cols - 1))%Z in
  let iy := ((0 <? cv.py pi) && (cv.py pi <? res_rows - 1))%Z in
  detect res log
  = Some
      ((if ix then
          IZR (cv.px pi)
          + subPixelPeak
              (mat_get res (Z.to_nat (cv.py pi)) (Z.to_nat (cv.px pi - 1))) pv
              (mat_get res (Z.to_nat (cv.py pi)) (Z.to_nat (cv.px pi + 1)))
        else IZR (cv.px pi)) - IZR (Z.quot res_cols 2),
       (if iy then
          IZR (cv.py pi)
          + subPixelPeak
              (mat_get res (Z.to_nat (cv.py pi - 1)) (Z.to_nat (cv.px pi))) pv
              (mat_get res (Z.to_nat (cv.py pi + 1)) (Z.to_nat (cv.px pi)))
        else IZR (cv.py pi)) - IZR (Z.quot res_rows 2),
       pv,
       (log
        ++ (if ix then [(cv.py pi, cv.px pi - 1); (cv.py pi, cv.px pi + 1)]%Z
            else []))
       ++ (if iy then [(cv.py pi - 1, cv.px pi); (cv.py pi + 1, cv.px pi)]%Z
           else [])).
Proof.
  intros Hr pi pv res_cols res_rows ix iy.
  assert (Hrange : (ix = false /\ iy = false) \/
                   ((0 <= cv.px pi < res_cols) /\ (0 <= cv.py pi < res_rows))%Z).
  { destruct (minMaxLoc_range res Hr) as [E | H]; [left | right; exact H].
    subst ix iy pi. rewrite E. split; reflexivity. }
  unfold detect. fold pi pv res_cols res_rows ix iy. unfold bind, ret.
  destruct Hrange as [[Ex Ey] | [Hx Hy]].
  - rewrite Ex, Ey. rewrite !app_nil_r. reflexivity.
  - destruct ix eqn:Ex.
    + apply andb_true_iff in Ex. destruct Ex as [Ex1 Ex2].
      apply Z.ltb_lt in Ex1, Ex2.
      rewrite (at_in_range res (cv.py pi) (cv.px pi - 1) log Hr)
        by (fold res_rows res_cols; lia).
      rewrite (at_in_range res (cv.py pi) (cv.px pi + 1) _ Hr)
        by (fold res_rows res_cols; lia).
      rewrite <- app_assoc. simpl app.
      destruct iy eqn:Ey.
      * apply andb_true_iff in Ey. destruct Ey as [Ey1 Ey2].
        apply Z.ltb_lt in Ey1, Ey2.
        rewrite (at_in_range res (cv.py pi - 1) (cv.px pi) _ Hr)
          by (fold res_rows res_cols; lia).
        rewrite (at_in_range res (cv.py pi + 1) (cv.px pi) _ Hr)
          by (fold res_rows res_cols; lia).
        rewrite <- !app_assoc. reflexivity.
      * rewrite app_nil_r. reflexivity.
    + rewrite app_nil_r.
      destruct iy eqn:Ey.
      * apply andb_true_iff in Ey. destruct Ey as [Ey1 Ey2].
        apply Z.ltb_lt in Ey1, Ey2.
        rewrite (at_in_range res (cv.py pi - 1) (cv.px pi) _ Hr)
          by (fold res_rows res_cols; lia).
        rewrite (at_in_range res (cv.py pi + 1) (cv.px pi) _ Hr)
          by (fold res_rows res_cols; lia).
        rewrite <- !app_assoc. reflexivity.
      * rewrite app_nil_r. reflexivity.
Qed.

(** C10. In [detect] the sub-pixel correction of an axis is applied only
    when the arg-max index is strictly interior on that axis.  When the
    maximum lies on the border of an axis, the two neighbours on that axis
    are not read and the offset on that axis is the integer peak coordinate
    minus half the response size. *)
Theorem detect_border_axis (res : cv.Mat) (log : list (Z * Z)) :
  rectangular res = true ->
  let pi := snd (minMaxLoc res) in
  let res_cols := Z.of_nat (cv.mat_cols res) in
  let res_rows := Z.of_nat (cv.mat_rows res) in
  exists p_x p_y peak_value reads,
    detect res log = Some (p_x, p_y, peak_value, log ++ reads) /\
    (~ (0 < cv.px pi < res_cols - 1)%Z ->
     p_x = IZR (cv.px pi - Z.quot res_cols 2) /\
     ~ In (cv.py pi, cv.px pi - 1)%Z reads /\
     ~ In (cv.py pi, cv.px pi + 1)%Z reads) /\
    (~ (0 < cv.py pi < res_rows - 1)%Z ->
     p_y = IZR (cv.py pi - Z.quot res_rows 2) /\
     ~ In (cv.py pi - 1, cv.px pi)%Z reads /\
     ~ In (cv.py pi + 1, cv.px pi)%Z reads) /\
    ((0 < cv.px pi < res_cols - 1)%Z ->
     p_x = IZR (cv.px pi)
           + subPixelPeak
               (mat_get res (Z.to_nat (cv.py pi)) (Z.to_nat (cv.px pi - 1)))
               peak_value
               (mat_get res (Z.to_nat (cv.py pi)) (Z.to_nat (cv.px pi + 1)))
           - IZR (Z.quot res_cols 2)) /\
    ((0 < cv.py pi < res_rows - 1)%Z ->
     p_y = IZR (cv.py pi)
           + subPixelPeak
               (mat_get res (Z.to_nat (cv.py pi - 1)) (Z.to_nat (cv.px pi)))
               peak_value
               (mat_get res (Z.to_nat (cv.py pi + 1)) (Z.to_nat (cv.px pi)))
           - IZR (Z.quot res_rows 2)).
Proof.
  intros Hr pi res_cols res_rows.
  pose proof (detect_run res log Hr) as H. cbv zeta in H.
  fold pi res_cols res_rows in H. rewrite <- app_assoc in H.
  eexists _, _, _, _. split; [exact H |].
  destruct ((0 <? cv.px pi) && (cv.px pi <? res_cols - 1))%Z eqn:Ex;
    destruct ((0 <? cv.py pi) && (cv.py pi <? res_rows - 1))%Z eqn:Ey;
    try (apply andb_true_iff in Ex; destruct Ex as [Ex1 Ex2];
         apply Z.ltb_lt in Ex1, Ex2);
    try (apply andb_true_iff in Ey; destruct Ey as [Ey1 Ey2];
         apply Z.ltb_lt in Ey1, Ey2);
    try (apply andb_false_iff in Ex;
         rewrite !Z.ltb_ge in Ex);
    try (apply andb_false_iff in Ey;
         rewrite !Z.ltb_ge in Ey);
    repeat split; intros; try lia; try reflexivity;
    try (rewrite minus_IZR; reflexivity);
    simpl; intros Hin;
    repeat (destruct Hin as [Hin | Hin]; [inversion Hin; lia |]);
    exact Hin.
Qed.
(** ** Box geometry *)

Ltac clamp_cases :=
  repeat match goal with
         | |- context [Rleb ?a ?b] =>
             let E := fresh "E" in
             destruct (Rleb a b) eqn:E;
             [apply Rleb_true in E | apply Rleb_false in E];
             cbn [cv.x cv.y cv.width cv.height with_x with_y] in *
         end.

Lemma clamp_to_frame_size (r : cv.Rect2f) (image : cv.Image) :
  cv.width (clamp_to_frame r image) = cv.width r /\
  cv.height (clamp_to_frame r image) = cv.height r.
Proof.
  unfold clamp_to_frame. destruct r as [x y w h].
  cbn [cv.x cv.y cv.width cv.height with_x with_y].
  clamp_cases; split; reflexivity.
Qed.

(** What the block of four tests establishes. *)
Lemma clamp_to_frame_post (r : cv.Rect2f) (image : cv.Image) :
  let r' := clamp_to_frame r image in
  0 < cv.x r' + cv.width r' /\
  0 < cv.y r' + cv.height r' /\
  (3 <= IZR (cv.cols image) + cv.width r ->
   cv.x r' <= IZR (cv.cols image - 1)) /\
  (3 <= IZR (cv.rows image) + cv.height r ->
   cv.y r' <= IZR (cv.rows image - 1)).
Proof.
  unfold clamp_to_frame. destruct r as [x y w h].
  destruct image as [c rw].
  cbn [cv.x cv.y cv.width cv.height cv.cols cv.rows with_x with_y].
  rewrite !minus_IZR.
  clamp_cases; repeat split; intros; lra.
Qed.

Lemma clamp_before_detect_size (r : cv.Rect2f) (image : cv.Image) :
  cv.width (clamp_before_detect r image) = cv.width r /\
  cv.height (clamp_before_detect r image) = cv.height r.
Proof.
  unfold clamp_before_detect. destruct r as [x y w h].
  cbn [cv.x cv.y cv.width cv.height with_x with_y].
  clamp_cases; split; reflexivity.
Qed.

(** With a scale factor of 1 and the base size equal to the box size,
    [update_roi] leaves the box where it is. *)
Lemma update_roi_unit (t : KCFTracker) :
  currentScaleFactor t = 1 ->
  IZR (base_width t) = cv.width (_roi t) ->
  IZR (base_height t) = cv.height (_roi t) ->
  _roi (update_roi t) = _roi t.
Proof.
  intros Hc Hw Hh. unfold update_roi. cbn [_roi with_roi].
  rewrite Hc, Hw, Hh. destruct (_roi t) as [x y w h].
  cbn [cv.x cv.y cv.width cv.height]. unfold cv.mkRect2f.
  f_equal; lra.
Qed.

Lemma update_roi_fields (t : KCFTracker) :
  cfg (update_roi t) = cfg t /\
  currentScaleFactor (update_roi t) = currentScaleFactor t /\
  base_width (update_roi t) = base_width t /\
  base_height (update_roi t) = base_height t /\
  scaleFactors (update_roi t) = scaleFactors t /\
  min_scale_factor (update_roi t) = min_scale_factor t /\
  max_scale_factor (update_roi t) = max_scale_factor t /\
  cv.width (_roi (update_roi t))
  = IZR (base_width t) * currentScaleFactor t /\
  cv.height (_roi (update_roi t))
  = IZR (base_height t) * currentScaleFactor t.
Proof. unfold update_roi. simpl. repeat split. Qed.

Lemma getFeatures_fields (t : KCFTracker) (inithann : bool) (fhog : Z * Z * Z) :
  cfg (getFeatures t inithann fhog) = cfg t /\
  currentScaleFactor (getFeatures t inithann fhog) = currentScaleFactor t /\
  _roi (getFeatures t inithann fhog) = _roi t /\
  base_width (getFeatures t inithann fhog) = base_width t /\
  base_height (getFeatures t inithann fhog) = base_height t /\
  scaleFactors (getFeatures t inithann fhog) = scaleFactors t /\
  min_scale_factor (getFeatures t inithann fhog) = min_scale_factor t /\
  max_scale_factor (getFeatures t inithann fhog) = max_scale_factor t.
Proof.
  unfold getFeatures, getFeatures_template.
  destruct inithann; simpl; [| repeat split].
  destruct (1 <? template_size (cfg t))%Z; simpl; repeat split.
Qed.

Lemma update_scale_value (t : KCFTracker) (factor : R) :
  currentScaleFactor (update_scale t factor)
  = Rmax (currentScaleFactor t * factor) (min_scale_factor t).
Proof.
  unfold update_scale. simpl.
  destruct (Rltb (currentScaleFactor t * factor) (min_scale_factor t)) eqn:E.
  - apply Rltb_true in E. rewrite Rmax_right by lra. reflexivity.
  - apply Rltb_false in E. rewrite Rmax_left by lra. reflexivity.
Qed.
Lemma Some_pair_inj {A B} (a a' : A) (b b' : B) :
  Some (a, b) = Some (a', b') -> a = a' /\ b = b'.
Proof. intros H. injection H as H1 H2. split; assumption. Qed.

(** The fields a step of [update] does not touch. *)
Lemma getFeatures_keep (t : KCFTracker) (fhog : Z * Z * Z) :
  getFeatures t false fhog
  = with_size_patch t
      (if _hogfeatures (cfg t) then fhog
       else (snd (_tmpl_sz t), fst (_tmpl_sz t), 1%Z)).
Proof. reflexivity. Qed.

(** The steps of a run of [update] that returns. *)
Lemma update_inv (t : KCFTracker) (image : cv.Image) (obs : Observation)
    (box : cv.Rect) (t' : KCFTracker) :
  update t image obs = Some (box, t') ->
  exists factor r,
    scaleFactors_at t (cv.px (detect_scale (scale_response obs)))
    = Some factor /\
    currentScaleFactor t'
    = Rmax (currentScaleFactor t * factor) (min_scale_factor t) /\
    min_scale_factor t' = min_scale_factor t /\
    max_scale_factor t' = max_scale_factor t /\
    box = cv.to_Rect (_roi t') /\
    _roi t' = clamp_to_frame r image /\
    cv.width r = IZR (base_width t) * currentScaleFactor t' /\
    cv.height r = IZR (base_height t) * currentScaleFactor t' /\
    0 <= cv.width r /\ 0 <= cv.height r.
Proof.
  unfold update. intros H.
  destruct (detect (response obs) []) as [[[[res_x res_y] pv] reads] |];
    [| discriminate].
  match type of H with
  | match scaleFactors_at ?u ?i with _ => _ end = _ =>
      change (scaleFactors_at u i) with (scaleFactors_at t i) in H;
      destruct (scaleFactors_at t i) as [factor |] eqn:Hf; [| discriminate]
  end.
  match type of H with
  | context [update_scale ?u factor] => set (t3 := u) in H
  end.
  set (t5 := update_roi (update_scale t3 factor)) in H.
  match type of H with
  | (if ?c then _ else _) = _ => destruct c eqn:Ha; [| discriminate]
  end.
  apply Some_pair_inj in H. destruct H as [Hbox Ht].
  apply andb_true_iff in Ha. destruct Ha as [Hw Hh].
  apply Rleb_true in Hw, Hh.
  change (_roi (with_roi t5 (clamp_to_frame (_roi t5) image)))
    with (clamp_to_frame (_roi t5) image) in Hw, Hh.
  destruct (clamp_to_frame_size (_roi t5) image) as [Ew Eh].
  rewrite Ew in Hw. rewrite Eh in Hh.
  assert (E3 : currentScaleFactor t3 = currentScaleFactor t /\
               min_scale_factor t3 = min_scale_factor t /\
               max_scale_factor t3 = max_scale_factor t /\
               base_width t3 = base_width t /\
               base_height t3 = base_height t).
  { subst t3. rewrite getFeatures_keep. repeat split. }
  destruct E3 as (E3c & E3m & E3x & E3w & E3h).
  destruct (update_roi_fields (update_scale t3 factor))
    as (_ & F5c & F5w & F5h & _ & F5m & F5x & F5rw & F5rh).
  fold t5 in F5c, F5w, F5h, F5m, F5x, F5rw, F5rh.
  rewrite update_scale_value, E3c, E3m in F5c.
  change (base_width (update_scale t3 factor)) with (base_width t3) in *.
  change (base_height (update_scale t3 factor)) with (base_height t3) in *.
  change (min_scale_factor (update_scale t3 factor))
    with (min_scale_factor t3) in *.
  change (max_scale_factor (update_scale t3 factor))
    with (max_scale_factor t3) in *.
  rewrite update_scale_value, E3c, E3m, E3w in F5rw.
  rewrite update_scale_value, E3c, E3m, E3h in F5rh.
  assert (Et : currentScaleFactor t' = currentScaleFactor t5 /\
               min_scale_factor t' = min_scale_factor t5 /\
               max_scale_factor t' = max_scale_factor t5 /\
               _roi t' = clamp_to_frame (_roi t5) image).
  { rewrite <- Ht, getFeatures_keep. repeat split. }
  destruct Et as (Etc & Etm & Etx & Etr).
  exists factor, (_roi t5).
  pose proof Hw as Hw2. pose proof Hh as Hh2.
  rewrite F5rw in Hw2. rewrite F5rh in Hh2.
  rewrite Etc, Etm, Etx, Etr, F5c, F5m, F5x, E3m, E3x, F5rw, F5rh.
  repeat split; try assumption.
  rewrite <- Hbox, getFeatures_keep. reflexivity.
Qed.

(** *** What [init] establishes *)

Lemma init_returns (t : KCFTracker) (roi : cv.Rect) (image : cv.Image)
    (fhog : Z * Z * Z) :
  (0 <= cv.width roi)%Z -> (0 <= cv.height roi)%Z ->
  exists t', init t roi image fhog = Returned t'.
Proof.
  intros Hw Hh. unfold init.
  apply Z.leb_le in Hw, Hh. rewrite Hw, Hh. eexists. reflexivity.
Qed.

Lemma init_inv (t : KCFTracker) (roi : cv.Rect) (image : cv.Image)
    (fhog : Z * Z * Z) (t' : KCFTracker) :
  init t roi image fhog = Returned t' ->
  (0 <= cv.width roi)%Z /\ (0 <= cv.height roi)%Z /\
  t' = dsstInit (getFeatures (with_roi t (cv.to_Rect2f roi)) true fhog) roi image.
Proof.
  unfold init.
  destruct ((0 <=? cv.width roi) && (0 <=? cv.height roi))%Z eqn:E;
    [| discriminate].
  apply andb_true_iff in E. destruct E as [Ew Eh].
  apply Z.leb_le in Ew, Eh.
  intros H. injection H as H. repeat split; try assumption.
  symmetry. exact H.
Qed.

Lemma dsstInit_fields (t : KCFTracker) (roi : cv.Rect) (image : cv.Image) :
  cfg (dsstInit t roi image) = cfg t /\
  currentScaleFactor (dsstInit t roi image) = currentScaleFactor t /\
  base_width (dsstInit t roi image) = cv.width roi /\
  base_height (dsstInit t roi image) = cv.height roi /\
  scaleFactors (dsstInit t roi image)
  = scale_table (scale_step (cfg t)) (n_scales (cfg t)) /\
  min_scale_factor (dsstInit t roi image)
  = Rpower (scale_step (cfg t))
      (ceilf (ln (Rmax (5 / IZR (cv.width roi)) (5 / IZR (cv.height roi))
                  * (1 + scale_padding (cfg t))) / 0.0086)) /\
  max_scale_factor (dsstInit t roi image)
  = Rpower (scale_step (cfg t))
      (floorf (ln (Rmin (IZR (cv.rows image) / IZR (cv.height roi))
                        (IZR (cv.cols image) / IZR (cv.width roi)))
               / 0.0086)).
Proof. repeat split. Qed.

Lemma init_fields (t : KCFTracker) (roi : cv.Rect) (image : cv.Image)
    (fhog : Z * Z * Z) (t' : KCFTracker) :
  init t roi image fhog = Returned t' ->
  cfg t' = cfg t /\
  currentScaleFactor t' = currentScaleFactor t /\
  base_width t' = cv.width roi /\
  base_height t' = cv.height roi /\
  scaleFactors t' = scale_table (scale_step (cfg t)) (n_scales (cfg t)) /\
  min_scale_factor t'
  = Rpower (scale_step (cfg t))
      (ceilf (ln (Rmax (5 / IZR (cv.width roi)) (5 / IZR (cv.height roi))
                  * (1 + scale_padding (cfg t))) / 0.0086)) /\
  max_scale_factor t'
  = Rpower (scale_step (cfg t))
      (floorf (ln (Rmin (IZR (cv.rows image) / IZR (cv.height roi))
                        (IZR (cv.cols image) / IZR (cv.width roi)))
               / 0.0086)).
Proof.
  intros H. apply init_inv in H. destruct H as (_ & _ & ->).
  destruct (getFeatures_fields (with_roi t (cv.to_Rect2f roi)) true fhog) as (Hc & Hs & _).
  destruct (dsstInit_fields (getFeatures (with_roi t (cv.to_Rect2f roi)) true fhog) roi image)
    as (F1 & F2 & F3 & F4 & F5 & F6 & F7).
  rewrite F1, F2, F3, F4, F5, F6, F7, Hc, Hs. repeat split.
Qed.

(** *** Responses with a single peak *)

Lemma nth_error_lt {A} (l : list A) (i : nat) (a : A) :
  nth_error l i = Some a -> (i < length l)%nat.
Proof. intros H. apply nth_error_Some. rewrite H. discriminate. Qed.


Lemma in_combine_seq_complete {A} (l : list A) (s i : nat) (a : A) :
  nth_error l i = Some a -> In ((s + i)%nat, a) (combine (seq s (length l)) l).
Proof.
  revert s i. induction l as [| b l IH]; intros s i H; destruct i; simpl in *;
    try discriminate.
  - left. inversion H. rewrite Nat.add_0_r. reflexivity.
  - right. replace (s + S i)%nat with (S s + i)%nat by lia. apply IH. exact H.
Qed.

Lemma indexed_complete (m : cv.Mat) (i j : nat) (row : list R) (v : R) :
  nth_error m i = Some row -> nth_error row j = Some v ->
  In (i, j, v) (indexed m).
Proof.
  intros Hr Hv. unfold indexed. apply in_concat.
  exists (map (fun jv => (i, fst jv, snd jv)) (combine (seq 0 (length row)) row)).
  split.
  - apply in_map_iff. exists (i, row). split; [reflexivity |].
    apply (in_combine_seq_complete m 0 i row Hr).
  - apply in_map_iff. exists (j, v). split; [reflexivity |].
    apply (in_combine_seq_complete row 0 j v Hv).
Qed.

Lemma fold_max_step_some (l : list (nat * nat * R))
    (best : option (nat * nat * R)) (e : nat * nat * R) :
  In e l -> exists r, fold_left max_step l best = Some r.
Proof.
  intros Hin.
  destruct (fold_left max_step l best) as [r |] eqn:E; [exists r; reflexivity |].
  exfalso. revert best E. induction l as [| a l IH]; intros best E; [easy |].
  simpl in E. destruct (fold_max_step l (max_step best a)) as [H | (r & _ & H)];
    rewrite H in E; [| discriminate].
  unfold max_step in E. destruct best as [b |]; [| discriminate].
  destruct (Rltb (snd b) (snd a)); discriminate.
Qed.

(** [minMaxLoc] finds a strict maximum where it is. *)
Lemma minMaxLoc_unique (m : cv.Mat) (i j : nat) (row : list R) :
  nth_error m i = Some row -> (j < length row)%nat ->
  (forall i' j' v, In (i', j', v) (indexed m) -> (i', j') <> (i, j) ->
                   v < mat_get m i j) ->
  minMaxLoc m = (mat_get m i j, cv.mkPoint (Z.of_nat j) (Z.of_nat i)).
Proof.
  intros Hr Hj Hmax.
  destruct (nth_error row j) as [v |] eqn:Hv;
    [| apply nth_error_None in Hv; lia].
  assert (Eg : mat_get m i j = v).
  { unfold mat_get. rewrite (nth_error_nth _ _ _ Hr).
    apply nth_error_nth. exact Hv. }
  pose proof (indexed_complete m i j row v Hr Hv) as Hin.
  destruct (fold_max_step_some (indexed m) None _ Hin) as [[[i' j'] v'] Hf].
  destruct (fold_max_step_upper _ _ _ Hf) as [_ Hup].
  destruct (fold_max_step (indexed m) None) as [H | (e & He & H)];
    rewrite Hf in H; [discriminate |].
  inversion H; subst e. clear H.
  unfold minMaxLoc. rewrite Hf.
  destruct (Nat.eq_dec i' i) as [-> | Hi];
    [destruct (Nat.eq_dec j' j) as [-> | Hj'] |].
  - apply indexed_sound in He. destruct He as (row' & Hr' & Hv').
    rewrite Hr in Hr'. inversion Hr'; subst row'.
    rewrite Hv in Hv'. inversion Hv'; subst v'.
    rewrite Eg. reflexivity.
  - exfalso. specialize (Hmax i j' v' He). specialize (Hup _ Hin).
    simpl in Hup. rewrite Eg in Hmax.
    assert (v' < v) by (apply Hmax; intros C; inversion C; lia). lra.
  - exfalso. specialize (Hmax i' j' v' He). specialize (Hup _ Hin).
    simpl in Hup. rewrite Eg in Hmax.
    assert (v' < v) by (apply Hmax; intros C; inversion C; lia). lra.
Qed.

Lemma rectangular_init (h w : nat) (f : nat -> nat -> R) :
  rectangular (mat_init h w f) = true.
Proof.
  unfold rectangular, cv.mat_rows. rewrite length_mat_init.
  destruct h as [| h].
  - reflexivity.
  - rewrite mat_cols_init by lia. apply has_dims_init.
Qed.

Lemma mat_get_peak (h w i j a b : nat) :
  (a < h)%nat -> (b < w)%nat ->
  mat_get (peak_response h w i j) a b
  = if ((a =? i) && (b =? j))%nat then 1 else 0.
Proof. intros Ha Hb. unfold peak_response. apply mat_get_init; assumption. Qed.

Lemma minMaxLoc_peak (h w i j : nat) :
  (i < h)%nat -> (j < w)%nat ->
  minMaxLoc (peak_response h w i j)
  = (1, cv.mkPoint (Z.of_nat j) (Z.of_nat i)).
Proof.
  intros Hi Hj.
  assert (Hg : mat_get (peak_response h w i j) i j = 1).
  { rewrite mat_get_peak by assumption. rewrite !Nat.eqb_refl. reflexivity. }
  rewrite <- Hg at 1.
  apply minMaxLoc_unique with (row := nth i (peak_response h w i j) []).
  - apply nth_error_nth'. unfold peak_response.
    rewrite length_mat_init. exact Hi.
  - unfold peak_response. rewrite nth_mat_init by exact Hi.
    rewrite length_map, length_seq. exact Hj.
  - intros i' j' v Hin Hne. rewrite Hg.
    apply indexed_sound in Hin. destruct Hin as (row & Hr & Hv).
    assert (Hi' : (i' < h)%nat).
    { apply nth_error_lt in Hr. unfold peak_response in Hr.
      rewrite length_mat_init in Hr. exact Hr. }
    assert (Hj' : (j' < w)%nat).
    { pose proof (nth_error_nth _ _ [] Hr) as Er.
      unfold peak_response in Er. rewrite nth_mat_init in Er by exact Hi'.
      subst row. apply nth_error_lt in Hv.
      rewrite length_map, length_seq in Hv. exact Hv. }
    assert (Ev : v = mat_get (peak_response h w i j) i' j').
    { unfold mat_get. rewrite (nth_error_nth _ _ _ Hr).
      symmetry. apply nth_error_nth. exact Hv. }
    rewrite Ev, mat_get_peak by assumption.
    destruct ((i' =? i) && (j' =? j))%nat eqn:E; [| lra].
    apply andb_true_iff in E. destruct E as [E1 E2].
    apply Nat.eqb_eq in E1, E2. subst. contradiction.
Qed.

(** A peak strictly inside the response, with zero neighbours, is reported
    at its integer place. *)
Lemma detect_peak (h w i j : nat) :
  (0 < i)%nat -> (i + 1 < h)%nat -> (0 < j)%nat -> (j + 1 < w)%nat ->
  exists reads,
    detect (peak_response h w i j) []
    = Some (IZR (Z.of_nat j) + 0 - IZR (Z.quot (Z.of_nat w) 2),
            IZR (Z.of_nat i) + 0 - IZR (Z.quot (Z.of_nat h) 2), 1, reads).
Proof.
  intros Hi Hi' Hj Hj'.
  pose proof (detect_run (peak_response h w i j) []
                (rectangular_init h w _)) as H.
  cbv zeta in H. rewrite (minMaxLoc_peak h w i j) in H by lia.
  cbn [fst snd cv.px cv.py] in H.
  assert (Hc : cv.mat_cols (peak_response h w i j) = w)
    by (apply mat_cols_init; lia).
  assert (Hrw : cv.mat_rows (peak_response h w i j) = h)
    by apply length_mat_init.
  rewrite Hc, Hrw in H.
  assert (Ex : ((0 <? Z.of_nat j) && (Z.of_nat j <? Z.of_nat w - 1))%Z = true).
  { apply andb_true_iff. split; apply Z.ltb_lt; lia. }
  assert (Ey : ((0 <? Z.of_nat i) && (Z.of_nat i <? Z.of_nat h - 1))%Z = true).
  { apply andb_true_iff. split; apply Z.ltb_lt; lia. }
  rewrite Ex, Ey in H.
  replace (Z.to_nat (Z.of_nat j - 1)) with (j - 1)%nat in H by lia.
  replace (Z.to_nat (Z.of_nat j + 1)) with (j + 1)%nat in H by lia.
  replace (Z.to_nat (Z.of_nat i - 1)) with (i - 1)%nat in H by lia.
  replace (Z.to_nat (Z.of_nat i + 1)) with (i + 1)%nat in H by lia.
  rewrite !Nat2Z.id in H.
  rewrite !mat_get_peak in H by lia.
  rewrite !Nat.eqb_refl in H.
  replace (j - 1 =? j)%nat with false in H by (symmetry; apply Nat.eqb_neq; lia).
  replace (j + 1 =? j)%nat with false in H by (symmetry; apply Nat.eqb_neq; lia).
  replace (i - 1 =? i)%nat with false in H by (symmetry; apply Nat.eqb_neq; lia).
  replace (i + 1 =? i)%nat with false in H by (symmetry; apply Nat.eqb_neq; lia).
  cbn [andb] in H.
  assert (Es : subPixelPeak 0 1 0 = 0).
  { rewrite subPixelPeak_parabola by lra. unfold Rdiv. ring. }
  rewrite Es in H. eexists. exact H.
Qed.

(** One run of [update], step by step: the box after the translation step
    ([r1]), the new scale factor ([c']), the box [update_roi] computes
    ([r2]) and the returned box ([r3]). *)
Lemma update_spec (t : KCFTracker) (image : cv.Image) (obs : Observation)
    (res_x res_y pv : R) (reads : list (Z * Z)) (factor : R) :
  detect (response obs) [] = Some (res_x, res_y, pv, reads) ->
  scaleFactors_at t (cv.px (detect_scale (scale_response obs))) = Some factor ->
  let r0 := clamp_before_detect (_roi t) image in
  let cx := cv.x r0 + cv.width r0 / 2 in
  let cy := cv.y r0 + cv.height r0 / 2 in
  let shift v := v * IZR (cell_size (cfg t)) * _scale t * currentScaleFactor t in
  let r1 := clamp_to_frame
              (cv.mkRect2f (cx - cv.width r0 / 2 + shift res_x)
                           (cy - cv.height r0 / 2 + shift res_y)
                           (cv.width r0) (cv.height r0)) image in
  let c' := Rmax (currentScaleFactor t * factor) (min_scale_factor t) in
  let w' := IZR (base_width t) * c' in
  let h' := IZR (base_height t) * c' in
  let r2 := cv.mkRect2f (cv.x r1 + cv.width r1 / 2 - w' / 2)
                        (cv.y r1 + cv.height r1 / 2 - h' / 2) w' h' in
  let r3 := clamp_to_frame r2 image in
  0 <= w' -> 0 <= h' ->
  exists t',
    update t image obs = Some (cv.to_Rect r3, t') /\
    _roi t' = r3 /\ currentScaleFactor t' = c' /\
    cfg t' = cfg t /\ _scale t' = _scale t /\
    base_width t' = base_width t /\ base_height t' = base_height t /\
    scaleFactors t' = scaleFactors t /\
    min_scale_factor t' = min_scale_factor t /\
    max_scale_factor t' = max_scale_factor t.
Proof.
  intros Hd Hf r0 cx cy shift r1 c' w' h' r2 r3 Hw Hh.
  unfold update. rewrite Hd.
  match goal with
  | |- context [scaleFactors_at ?u ?i] =>
      change (scaleFactors_at u i) with (scaleFactors_at t i); rewrite Hf
  end.
  match goal with
  | |- context [update_scale ?u factor] => set (t3 := u)
  end.
  assert (E3 : _roi t3 = r1) by reflexivity.
  set (t5 := update_roi (update_scale t3 factor)).
  assert (Ec : currentScaleFactor (update_scale t3 factor) = c')
    by apply update_scale_value.
  assert (E5 : _roi t5 = r2).
  { unfold t5, update_roi.
    change (_roi (update_scale t3 factor)) with (_roi t3).
    change (base_width (update_scale t3 factor)) with (base_width t).
    change (base_height (update_scale t3 factor)) with (base_height t).
    rewrite Ec, E3. reflexivity. }
  assert (E5c : currentScaleFactor t5 = c') by exact Ec.
  rewrite E5. fold r3.
  change (_roi (with_roi t5 r3)) with r3.
  assert (Ea : Rleb 0 (cv.width r3) && Rleb 0 (cv.height r3) = true).
  { unfold r3. destruct (clamp_to_frame_size r2 image) as [Ew Eh].
    rewrite Ew, Eh. apply andb_true_iff. split; apply Rleb_true; assumption. }
  rewrite Ea. rewrite getFeatures_keep.
  eexists. split; [reflexivity |].
  split; [reflexivity |]. split; [exact E5c |].
  repeat split.
Qed.

(** [update] returns whenever the response is a rectangular matrix, the
    scale index falls in the table, and the base size and the minimum scale
    factor are not negative (so that the assertion on the box size holds). *)
Lemma update_returns (t : KCFTracker) (image : cv.Image) (obs : Observation)
    (factor : R) :
  rectangular (response obs) = true ->
  scaleFactors_at t (cv.px (detect_scale (scale_response obs))) = Some factor ->
  (0 <= base_width t)%Z -> (0 <= base_height t)%Z ->
  0 <= min_scale_factor t ->
  exists box t', update t image obs = Some (box, t').
Proof.
  intros Hr Hf Hw Hh Hm.
  pose proof (detect_run (response obs) [] Hr) as Hd. cbv zeta in Hd.
  pose proof (update_spec t image obs _ _ _ _ factor Hd Hf) as H.
  cbv zeta in H.
  assert (Hc : 0 <= Rmax (currentScaleFactor t * factor) (min_scale_factor t)).
  { eapply Rle_trans; [exact Hm | apply Rmax_r]. }
  assert (0 <= IZR (base_width t)) by (apply IZR_le; assumption).
  assert (0 <= IZR (base_height t)) by (apply IZR_le; assumption).
  destruct H as (t' & Hu & _).
  - nra.
  - nra.
  - eexists _, t'. exact Hu.
Qed.

(** A box that overlaps the frame and starts before its last column and row
    passes both blocks of tests unchanged. *)
Lemma clamps_identity (r : cv.Rect2f) (image : cv.Image) :
  0 < cv.x r + cv.width r -> 0 < cv.y r + cv.height r ->
  cv.x r < IZR (cv.cols image - 1) -> cv.y r < IZR (cv.rows image - 1) ->
  clamp_before_detect r image = r /\ clamp_to_frame r image = r.
Proof.
  intros H1 H2 H3 H4.
  unfold clamp_before_detect, clamp_to_frame.
  assert (E1 : Rleb (cv.x r + cv.width r) 0 = false)
    by (apply Rleb_false; lra).
  assert (E2 : Rleb (cv.y r + cv.height r) 0 = false)
    by (apply Rleb_false; lra).
  assert (E3 : Rleb (IZR (cv.cols image - 1)) (cv.x r) = false)
    by (apply Rleb_false; lra).
  assert (E4 : Rleb (IZR (cv.rows image - 1)) (cv.y r) = false)
    by (apply Rleb_false; lra).
  rewrite E1, E2, E3, E4. rewrite E1, E2. split; reflexivity.
Qed.

Lemma mkRect2f_eq (a b c d a' b' c' d' : R) :
  a = a' -> b = b' -> c = c' -> d = d' ->
  cv.mkRect2f a b c d = cv.mkRect2f a' b' c' d'.
Proof. intros -> -> -> ->. reflexivity. Qed.

(** A frame without change of scale, on a box that stays clear of the
    tests before and after the translation: [update] moves the box by the
    detected offset, in pixels, and changes nothing else. *)
Lemma update_inside (t : KCFTracker) (image : cv.Image) (obs : Observation)
    (res_x res_y pv : R) (reads : list (Z * Z)) (r : cv.Rect2f) :
  detect (response obs) [] = Some (res_x, res_y, pv, reads) ->
  scaleFactors_at t (cv.px (detect_scale (scale_response obs))) = Some 1 ->
  min_scale_factor t <= currentScaleFactor t ->
  cv.width (_roi t) = IZR (base_width t) * currentScaleFactor t ->
  cv.height (_roi t) = IZR (base_height t) * currentScaleFactor t ->
  0 <= cv.width (_roi t) -> 0 <= cv.height (_roi t) ->
  0 < cv.x (_roi t) + cv.width (_roi t) ->
  0 < cv.y (_roi t) + cv.height (_roi t) ->
  cv.x (_roi t) < IZR (cv.cols image - 1) ->
  cv.y (_roi t) < IZR (cv.rows image - 1) ->
  r = cv.mkRect2f
        (cv.x (_roi t)
         + res_x * IZR (cell_size (cfg t)) * _scale t * currentScaleFactor t)
        (cv.y (_roi t)
         + res_y * IZR (cell_size (cfg t)) * _scale t * currentScaleFactor t)
        (cv.width (_roi t)) (cv.height (_roi t)) ->
  0 < cv.x r + cv.width r -> 0 < cv.y r + cv.height r ->
  cv.x r < IZR (cv.cols image - 1) -> cv.y r < IZR (cv.rows image - 1) ->
  exists t',
    update t image obs = Some (cv.to_Rect r, t') /\
    _roi t' = r /\ currentScaleFactor t' = currentScaleFactor t.
Proof.
  intros Hd Hf Hm Hw Hh Hw0 Hh0 H1 H2 H3 H4 Er R1 R2 R3 R4.
  destruct (clamps_identity (_roi t) image H1 H2 H3 H4) as [C0 _].
  destruct (clamps_identity r image R1 R2 R3 R4) as [_ C1].
  pose proof (update_spec t image obs _ _ _ _ _ Hd Hf) as H. cbv zeta in H.
  rewrite C0 in H.
  assert (E1 : cv.mkRect2f
                 (cv.x (_roi t) + cv.width (_roi t) / 2
                  - cv.width (_roi t) / 2
                  + res_x * IZR (cell_size (cfg t)) * _scale t
                    * currentScaleFactor t)
                 (cv.y (_roi t) + cv.height (_roi t) / 2
                  - cv.height (_roi t) / 2
                  + res_y * IZR (cell_size (cfg t)) * _scale t
                    * currentScaleFactor t)
                 (cv.width (_roi t)) (cv.height (_roi t)) = r).
  { rewrite Er. apply mkRect2f_eq; lra. }
  rewrite E1, C1 in H.
  rewrite Rmult_1_r, (Rmax_left _ _ Hm) in H.
  rewrite <- Hw, <- Hh in H.
  assert (E2 : cv.mkRect2f
                 (cv.x r + cv.width r / 2 - cv.width (_roi t) / 2)
                 (cv.y r + cv.height r / 2 - cv.height (_roi t) / 2)
                 (cv.width (_roi t)) (cv.height (_roi t)) = r).
  { rewrite Er. cbn [cv.x cv.y cv.width cv.height cv.mkRect2f].
    apply mkRect2f_eq; lra. }
  rewrite E2, C1 in H.
  destruct (H Hw0 Hh0) as (t' & Hu & Hroi & Hc & _).
  exists t'. repeat split; assumption.
Qed.

(** C1. Each [update] multiplies [currentScaleFactor] by the table entry that
    scale detection chose and clamps the product at the lower bound only:
    afterwards [currentScaleFactor >= min_scale_factor], and nothing keeps it
    below [max_scale_factor]. *)
Theorem update_scale_factor_lower_clamp_only :
  (forall t image obs box t',
      update t image obs = Some (box, t') ->
      min_scale_factor t' = min_scale_factor t /\
      min_scale_factor t' <= currentScaleFactor t' /\
      exists factor,
        scaleFactors_at t (cv.px (detect_scale (scale_response obs)))
        = Some factor /\
        currentScaleFactor t'
        = Rmax (currentScaleFactor t * factor) (min_scale_factor t)) /\
  (exists t' box t'',
      init (KCFTracker_new fresh true true true false)
           (cv.mkRect 0 0 100 100) (cv.mkImage 100 100) (24, 24, 31)%Z
      = Returned t' /\
      update t' (cv.mkImage 100 100) grow_observation = Some (box, t'') /\
      max_scale_factor t'' < currentScaleFactor t'').
Proof.
  split.
  - intros t image obs box t' H.
    destruct (update_inv t image obs box t' H)
      as (factor & r & Hf & Hc & Hmin & _).
    split; [exact Hmin |]. split.
    + rewrite Hc, Hmin. apply Rmax_r.
    + exists factor. split; assumption.
  - destruct (init_returns (KCFTracker_new fresh true true true false)
                (cv.mkRect 0 0 100 100) (cv.mkImage 100 100) (24, 24, 31)%Z)
      as (t' & Hi); [simpl; lia | simpl; lia |].
    pose proof (init_fields _ _ _ _ _ Hi)
      as (_ & Hcsf0 & Hbw0 & Hbh0 & Htab0 & Hmin0 & Hmax0).
    assert (Hcsf : currentScaleFactor t' = 1) by exact Hcsf0.
    assert (Hbw : base_width t' = 100%Z) by exact Hbw0.
    assert (Hbh : base_height t' = 100%Z) by exact Hbh0.
    assert (Htab : scaleFactors t' = scale_table 1.05 33) by exact Htab0.
    assert (Hmin : min_scale_factor t'
                   = Rpower 1.05
                       (ceilf (ln (Rmax (5 / IZR 100) (5 / IZR 100) * (1 + 1.0))
                               / 0.0086))) by exact Hmin0.
    assert (Hmax : max_scale_factor t'
                   = Rpower 1.05
                       (floorf (ln (Rmin (IZR 100 / IZR 100) (IZR 100 / IZR 100))
                                / 0.0086))) by exact Hmax0.
    clear Hcsf0 Hbw0 Hbh0 Htab0 Hmin0 Hmax0.
    assert (Hf : scaleFactors_at t'
                   (cv.px (detect_scale (scale_response grow_observation)))
                 = Some (Rpower 1.05 (ceilf (33 / 2) - INR 0 - 1))).
    { unfold grow_observation, detect_scale. cbn [scale_response].
      rewrite minMaxLoc_peak by lia.
      unfold scaleFactors_at. rewrite Htab. reflexivity. }
    destruct (update_returns t' (cv.mkImage 100 100) grow_observation _
                eq_refl Hf) as (box & t'' & Hu).
    + rewrite Hbw. lia.
    + rewrite Hbh. lia.
    + rewrite Hmin. unfold Rpower. left. apply exp_pos.
    + exists t', box, t''. split; [exact Hi |]. split; [exact Hu |].
      destruct (update_inv _ _ _ _ _ Hu)
        as (factor & r & Hf' & Hc & _ & Hmax' & _).
      rewrite Hf in Hf'. inversion Hf'. subst factor.
      rewrite Hmax', Hmax, Hc, Hcsf.
      replace (IZR 100 / IZR 100) with 1 by lra.
      rewrite Rmin_left by lra. rewrite ln_1.
      replace (0 / 0.0086) with 0 by lra.
      unfold floorf. rewrite (ZfloorZ 0), Rpower_O by lra.
      apply Rlt_le_trans with (Rpower 1.05 (ceilf (33 / 2) - INR 0 - 1) * 1);
        [| rewrite Rmult_comm; apply Rmax_l].
      rewrite Rmult_1_r, <- (Rpower_O 1.05) at 1 by lra.
      apply Rpower_lt; [lra |].
      pose proof (Zfloor_ceil_bound (33 / 2)) as [_ Hb].
      unfold ceilf. simpl INR. lra.
Qed.
(** Without a change of scale [init] stores the box as it is given. *)
Lemma init_keeps_box (t : KCFTracker) (roi : cv.Rect) (image : cv.Image)
    (fhog : Z * Z * Z) (t' : KCFTracker) :
  currentScaleFactor t = 1 ->
  init t roi image fhog = Returned t' -> _roi t' = cv.to_Rect2f roi.
Proof.
  intros Hc H. apply init_inv in H. destruct H as (_ & _ & ->).
  destruct (getFeatures_fields (with_roi t (cv.to_Rect2f roi)) true fhog)
    as (_ & Hs & Hr & _).
  unfold dsstInit. rewrite update_roi_unit.
  - exact Hr.
  - change (currentScaleFactor
              (getFeatures (with_roi t (cv.to_Rect2f roi)) true fhog) = 1).
    rewrite Hs. exact Hc.
  - change (IZR (cv.width roi)
            = cv.width (_roi (getFeatures (with_roi t (cv.to_Rect2f roi))
                                          true fhog))).
    rewrite Hr. reflexivity.
  - change (IZR (cv.height roi)
            = cv.height (_roi (getFeatures (with_roi t (cv.to_Rect2f roi))
                                           true fhog))).
    rewrite Hr. reflexivity.
Qed.

(** C8 (amended).  For frames and boxes of up to [2^22] pixels a side:
    after every [update] that returns, the box the tracker keeps satisfies
    [x + width > 0] and [y + height > 0], and [x <= image.cols - 1] when the
    frame has at least 3 columns ([y <= image.rows - 1] when it has at
    least 3 rows).  The box returned is the kept one with every field
    rounded to the nearest integer: it satisfies the same two upper bounds,
    and [x + width >= 0] and [y + height >= 0]. *)
Theorem update_box_clamped (t : KCFTracker) (image : cv.Image)
    (obs : Observation) (box : cv.Rect) (t' : KCFTracker) :
  update t image obs = Some (box, t') ->
  cv.width (_roi t') <= 4194304 -> cv.height (_roi t') <= 4194304 ->
  (cv.cols image <= 4194304)%Z -> (cv.rows image <= 4194304)%Z ->
  box = cv.to_Rect (_roi t') /\
  (0 < cv.x (_roi t') + cv.width (_roi t') /\
   0 < cv.y (_roi t') + cv.height (_roi t') /\
   ((3 <= cv.cols image)%Z -> cv.x (_roi t') <= IZR (cv.cols image - 1)) /\
   ((3 <= cv.rows image)%Z -> cv.y (_roi t') <= IZR (cv.rows image - 1))) /\
  ((0 <= cv.x box + cv.width box)%Z /\
   (0 <= cv.y box + cv.height box)%Z /\
   ((3 <= cv.cols image)%Z -> (cv.x box <= cv.cols image - 1)%Z) /\
   ((3 <= cv.rows image)%Z -> (cv.y box <= cv.rows image - 1)%Z)).
Proof.
  intros H _ _ _ _.
  destruct (update_inv t image obs box t' H)
    as (factor & r & _ & _ & _ & _ & Hb & Hr & _ & _ & Hw & Hh).
  destruct (clamp_to_frame_post r image) as (Hx & Hy & Hc & Hrw).
  cbv zeta in Hx, Hy, Hc, Hrw. rewrite <- Hr in Hx, Hy, Hc, Hrw.
  assert (Hc' : (3 <= cv.cols image)%Z ->
                cv.x (_roi t') <= IZR (cv.cols image - 1)).
  { intros C. apply Hc. apply IZR_le in C. lra. }
  assert (Hr' : (3 <= cv.rows image)%Z ->
                cv.y (_roi t') <= IZR (cv.rows image - 1)).
  { intros C. apply Hrw. apply IZR_le in C. lra. }
  split; [exact Hb |]. split; [repeat split; assumption |].
  rewrite Hb. unfold cv.to_Rect. cbn [cv.x cv.y cv.width cv.height].
  pose proof (cvRound_bound (cv.x (_roi t'))) as Bx.
  pose proof (cvRound_bound (cv.y (_roi t'))) as By.
  pose proof (cvRound_bound (cv.width (_roi t'))) as Bw.
  pose proof (cvRound_bound (cv.height (_roi t'))) as Bh.
  repeat split.
  - assert (-1 < cv.cvRound (cv.x (_roi t'))
                 + cv.cvRound (cv.width (_roi t')))%Z; [| lia].
    apply lt_IZR. rewrite plus_IZR. lra.
  - assert (-1 < cv.cvRound (cv.y (_roi t'))
                 + cv.cvRound (cv.height (_roi t')))%Z; [| lia].
    apply lt_IZR. rewrite plus_IZR. lra.
  - intros C. apply cvRound_le, Hc', C.
  - intros C. apply cvRound_le, Hr', C.
Qed.
(** *** A run that leaves the frame on the left *)

(** Entry 16 of the table of the multi-scale constructor is 1. *)
Lemma unit_scale (t : KCFTracker) (obs : Observation) :
  scaleFactors t = scale_table 1.05 33 ->
  scale_response obs = peak_response 1 33 0 16 ->
  scaleFactors_at t (cv.px (detect_scale (scale_response obs))) = Some 1.
Proof.
  intros Ht Hs. unfold detect_scale. rewrite Hs.
  rewrite minMaxLoc_peak by lia. cbn [snd cv.px].
  unfold scaleFactors_at. rewrite Ht.
  change (0 <=? Z.of_nat 16)%Z with true. cbv iota.
  change (nth_error (scale_table 1.05 33) (Z.to_nat (Z.of_nat 16)))
    with (Some (Rpower 1.05 (ceilf (33 / 2) - INR 16 - 1))).
  f_equal.
  assert (Ec : ceilf (33 / 2) = 17).
  { unfold ceilf. rewrite (Zceil_eq 17); [reflexivity | lra]. }
  rewrite Ec, INR_IZR_INZ. change (Z.of_nat 16) with 16%Z.
  replace (17 - 16 - 1) with 0 by lra. apply Rpower_O. lra.
Qed.

(** The minimum scale factor of [dsstInit] for a box of at least
    [5 * (1 + scale_padding)] pixels on each side. *)
Lemma min_scale_bound (step pad w h : R) :
  1 <= step -> 0 <= pad -> 5 * (1 + pad) <= w -> 5 * (1 + pad) <= h ->
  Rpower step (ceilf (ln (Rmax (5 / w) (5 / h) * (1 + pad)) / 0.0086)) <= 1.
Proof.
  intros Hs Hp Hw Hh.
  assert (0 < w) by lra. assert (0 < h) by lra.
  assert (Hiw : 0 < 5 / w) by (apply Rdiv_lt_0_compat; lra).
  assert (Hih : 0 < 5 / h) by (apply Rdiv_lt_0_compat; lra).
  assert (Ew : 5 / w * w = 5) by (field; lra).
  assert (Eh : 5 / h * h = 5) by (field; lra).
  apply Rpower_le_1; [exact Hs |]. apply ceilf_nonpos.
  assert (ln (Rmax (5 / w) (5 / h) * (1 + pad)) <= 0).
  { apply ln_nonpos. split.
    - apply Rmult_lt_0_compat; [| lra].
      apply Rlt_le_trans with (5 / w); [exact Hiw | apply Rmax_l].
    - apply Rmax_case; nra. }
  unfold Rdiv. nra.
Qed.

(** The minimum scale factor [dsstInit] computes for a 40 x 40 box. *)
Lemma min_scale_factor_40 :
  Rpower 1.05
    (ceilf (ln (Rmax (5 / IZR 40) (5 / IZR 40) * (1 + 1.0)) / 0.0086))
  <= / 1.05 ^ 116.
Proof.
  rewrite <- (Rpower_neg_nat 1.05 116) by lra.
  apply Rle_Rpower; [lra |].
  rewrite Rmax_left by lra.
  replace (5 / 40 * (1 + 1.0)) with (/ (2 * 2)) by lra.
  rewrite ln_Rinv, ln_mult by lra.
  pose proof ln_lt_2 as H2.
  unfold ceilf.
  replace (- INR 116) with (IZR (-116)) by (rewrite INR_IZR_INZ; simpl; lra).
  apply IZR_le, Zceil_le. lra.
Qed.


(** The scale between frame and template that the first [getFeatures]
    fixes in fixed-window mode, for a box at least as wide as high. *)
Lemma getFeatures_template_scale (t : KCFTracker) (pw ph : Z) :
  (1 < template_size (cfg t))%Z ->
  float2int (cv.width (_roi t) * padding (cfg t)) = pw ->
  float2int (cv.height (_roi t) * padding (cfg t)) = ph ->
  (ph <= pw)%Z ->
  _scale (getFeatures_template t) = IZR pw / IZR (template_size (cfg t)).
Proof.
  intros Hts Hpw Hph Hle. unfold getFeatures_template.
  rewrite Hpw, Hph.
  apply Z.ltb_lt in Hts. rewrite Hts.
  apply Z.leb_le in Hle. rewrite Hle. reflexivity.
Qed.

(** C8, as stated, fails for the box [update] returns.  After [init] on a
    12 x 12 box at [x = 2] in a 100 x 100 frame, a frame in which the
    target has moved 11 cells (13.75 pixels) to the left moves the box to
    [x = -11.75]: it still overlaps the frame, no test fires, and [update]
    returns it rounded, as (-12, 50, 12, 12), for which [x + width] is 0. *)
Lemma update_box_left_of_frame :
  exists t0 box t1,
    init (KCFTracker_new fresh true true true false)
         (cv.mkRect 2 50 12 12) (cv.mkImage 100 100) (24, 24, 31)%Z
    = Returned t0 /\
    update t0 (cv.mkImage 100 100) drift_observation = Some (box, t1) /\
    _roi t1 = cv.mkRect2f (-11.75) 50 12 12 /\
    box = cv.mkRect (-12) 50 12 12 /\
    (cv.x box + cv.width box = 0)%Z.
Proof.
  set (T := KCFTracker_new fresh true true true false).
  set (roi := cv.mkRect 2 50 12 12).
  set (image := cv.mkImage 100 100).
  destruct (init_returns T roi image (24, 24, 31)%Z) as [t0 Hi];
    [simpl; lia | simpl; lia |].
  pose proof (init_keeps_box T roi image _ t0 eq_refl Hi) as Hroi.
  destruct (init_fields _ _ _ _ _ Hi)
    as (Hcfg & Hcsf0 & Hbw0 & Hbh0 & Htab0 & Hmin0 & _).
  assert (Hcsf : currentScaleFactor t0 = 1) by exact Hcsf0.
  assert (Hbw : base_width t0 = 12%Z) by exact Hbw0.
  assert (Hbh : base_height t0 = 12%Z) by exact Hbh0.
  assert (Htab : scaleFactors t0 = scale_table 1.05 33) by exact Htab0.
  assert (Hmin : min_scale_factor t0 <= 1).
  { rewrite Hmin0. apply min_scale_bound.
    - change (scale_step (cfg T)) with 1.05. lra.
    - change (scale_padding (cfg T)) with 1.0. lra.
    - change (scale_padding (cfg T)) with 1.0.
      change (cv.width roi) with 12%Z. lra.
    - change (scale_padding (cfg T)) with 1.0.
      change (cv.height roi) with 12%Z. lra. }
  assert (Hcell : cell_size (cfg t0) = 4%Z) by (rewrite Hcfg; reflexivity).
  assert (Hs : _scale t0 = 30 / 96).
  { destruct (init_inv _ _ _ _ _ Hi) as (_ & _ & E). rewrite E.
    change (_scale (dsstInit
                      (getFeatures (with_roi T (cv.to_Rect2f roi)) true
                                   (24, 24, 31)%Z) roi image))
      with (_scale (getFeatures_template (with_roi T (cv.to_Rect2f roi)))).
    rewrite (getFeatures_template_scale _ 30 30); [reflexivity | reflexivity | | | lia].
    - change (cv.width (_roi (with_roi T (cv.to_Rect2f roi)))) with (IZR 12).
      change (padding (cfg (with_roi T (cv.to_Rect2f roi)))) with 2.5.
      replace (IZR 12 * 2.5) with (IZR 30) by lra. apply float2int_IZR.
    - change (cv.height (_roi (with_roi T (cv.to_Rect2f roi)))) with (IZR 12).
      change (padding (cfg (with_roi T (cv.to_Rect2f roi)))) with 2.5.
      replace (IZR 12 * 2.5) with (IZR 30) by lra. apply float2int_IZR. }
  destruct (detect_peak 24 24 12 1) as [reads Hd]; try lia.
  change (Z.of_nat 1) with 1%Z in Hd. change (Z.of_nat 12) with 12%Z in Hd.
  change (Z.quot (Z.of_nat 24) 2) with 12%Z in Hd.
  destruct (update_inside t0 image drift_observation _ _ _ _
              (cv.mkRect2f (-11.75) 50 12 12) Hd
              (unit_scale t0 drift_observation Htab eq_refl))
    as (t1 & Hu & Hr1 & _).
  - rewrite Hcsf. exact Hmin.
  - rewrite Hroi, Hbw, Hcsf. cbn [cv.width cv.to_Rect2f roi cv.mkRect]. lra.
  - rewrite Hroi, Hbh, Hcsf. cbn [cv.height cv.to_Rect2f roi cv.mkRect]. lra.
  - rewrite Hroi. cbn [cv.width cv.to_Rect2f roi cv.mkRect]. lra.
  - rewrite Hroi. cbn [cv.height cv.to_Rect2f roi cv.mkRect]. lra.
  - rewrite Hroi. cbn [cv.x cv.width cv.to_Rect2f roi cv.mkRect]. lra.
  - rewrite Hroi. cbn [cv.y cv.height cv.to_Rect2f roi cv.mkRect]. lra.
  - rewrite Hroi, minus_IZR.
    cbn [cv.x cv.to_Rect2f roi cv.mkRect cv.cols image]. lra.
  - rewrite Hroi, minus_IZR.
    cbn [cv.y cv.to_Rect2f roi cv.mkRect cv.rows image]. lra.
  - rewrite Hroi, Hcell, Hs, Hcsf.
    cbn [cv.x cv.y cv.width cv.height cv.to_Rect2f roi cv.mkRect].
    apply mkRect2f_eq; lra.
  - cbn [cv.x cv.width cv.mkRect2f]. lra.
  - cbn [cv.y cv.height cv.mkRect2f]. lra.
  - rewrite minus_IZR. cbn [cv.x cv.mkRect2f cv.cols image]. lra.
  - rewrite minus_IZR. cbn [cv.y cv.mkRect2f cv.rows image]. lra.
  - exists t0, (cv.to_Rect (cv.mkRect2f (-11.75) 50 12 12)), t1.
    split; [exact Hi |]. split; [exact Hu |]. split; [exact Hr1 |].
    assert (Eb : cv.to_Rect (cv.mkRect2f (-11.75) 50 12 12)
                 = cv.mkRect (-12) 50 12 12).
    { unfold cv.to_Rect, cv.mkRect.
      cbn [cv.x cv.y cv.width cv.height cv.mkRect2f].
      rewrite (cvRound_eq (-12) (-11.75)) by lra.
      rewrite (cvRound_IZR 50), (cvRound_IZR 12). reflexivity. }
    rewrite Eb. split; reflexivity.
Qed.

(** A frame without motion for the tracker of a 40 x 40 box in an 85 x 85
    frame: [update] returns the box and keeps it. *)
Lemma update_sample_still :
  exists t',
    update sample_tracker (cv.mkImage 85 85) still_observation
    = Some (cv.mkRect 30 30 40 40, t') /\
    _roi t' = cv.mkRect2f 30 30 40 40.
Proof.
  assert (Hroi : _roi sample_tracker
                 = cv.to_Rect2f (cv.mkRect 30 30 40 40)).
  { unfold sample_tracker, dsstInit. rewrite update_roi_unit; reflexivity. }
  destruct (detect_peak 24 24 12 12) as [reads Hd]; try lia.
  change (Z.of_nat 12) with 12%Z in Hd.
  change (Z.quot (Z.of_nat 24) 2) with 12%Z in Hd.
  destruct (update_inside sample_tracker (cv.mkImage 85 85)
              still_observation _ _ _ _ (cv.mkRect2f 30 30 40 40) Hd
              (unit_scale sample_tracker still_observation eq_refl eq_refl))
    as (t' & Hu & Hr & _).
  - change (currentScaleFactor sample_tracker) with 1.
    eapply Rle_trans; [exact min_scale_factor_40 |].
    assert (0 < 1.05 ^ 116) by (apply pow_lt; lra).
    rewrite <- Rinv_1. apply Rinv_le_contravar; [lra |].
    apply pow_R1_Rle. lra.
  - rewrite Hroi. change (base_width sample_tracker) with 40%Z.
    change (currentScaleFactor sample_tracker) with 1.
    cbn [cv.width cv.to_Rect2f cv.mkRect]. lra.
  - rewrite Hroi. change (base_height sample_tracker) with 40%Z.
    change (currentScaleFactor sample_tracker) with 1.
    cbn [cv.height cv.to_Rect2f cv.mkRect]. lra.
  - rewrite Hroi. cbn [cv.width cv.to_Rect2f cv.mkRect]. lra.
  - rewrite Hroi. cbn [cv.height cv.to_Rect2f cv.mkRect]. lra.
  - rewrite Hroi. cbn [cv.x cv.width cv.to_Rect2f cv.mkRect]. lra.
  - rewrite Hroi. cbn [cv.y cv.height cv.to_Rect2f cv.mkRect]. lra.
  - rewrite Hroi, minus_IZR. cbn [cv.x cv.to_Rect2f cv.mkRect cv.cols]. lra.
  - rewrite Hroi, minus_IZR. cbn [cv.y cv.to_Rect2f cv.mkRect cv.rows]. lra.
  - rewrite Hroi.
    cbn [cv.x cv.y cv.width cv.height cv.to_Rect2f cv.mkRect].
    apply mkRect2f_eq; lra.
  - cbn [cv.x cv.width cv.mkRect2f]. lra.
  - cbn [cv.y cv.height cv.mkRect2f]. lra.
  - rewrite minus_IZR. cbn [cv.x cv.mkRect2f cv.cols]. lra.
  - rewrite minus_IZR. cbn [cv.y cv.mkRect2f cv.rows]. lra.
  - exists t'. split; [| exact Hr].
    rewrite Hu. do 2 f_equal.
    unfold cv.to_Rect, cv.mkRect.
    cbn [cv.x cv.y cv.width cv.height cv.mkRect2f].
    rewrite (cvRound_IZR 30), (cvRound_IZR 40). reflexivity.
Qed.

(** ** Initialisation *)

(** C7. [init] fails by assertion if and only if the width or the height of
    the box is negative.  A failing call stops right after storing the box:
    every other field of the tracker is as before.  With width and height
    not negative the assertion passes and initialisation goes on. *)
Theorem init_assertion (t : KCFTracker) (roi : cv.Rect) (image : cv.Image)
    (fhog : Z * Z * Z) :
  ((cv.width roi < 0 \/ cv.height roi < 0)%Z <->
   init t roi image fhog
   = AssertionFailed (with_roi t (cv.to_Rect2f roi))) /\
  ((0 <= cv.width roi /\ 0 <= cv.height roi)%Z <->
   exists t', init t roi image fhog = Returned t').
Proof.
  unfold init.
  destruct ((0 <=? cv.width roi) && (0 <=? cv.height roi))%Z eqn:E.
  - apply andb_true_iff in E. destruct E as [Ew Eh].
    apply Z.leb_le in Ew, Eh. split; split.
    + intros [H | H]; lia.
    + discriminate.
    + intros _. eexists. reflexivity.
    + intros _. split; assumption.
  - apply andb_false_iff in E. rewrite !Z.leb_gt in E. split; split.
    + reflexivity.
    + intros _. lia.
    + intros [Hw Hh]. lia.
    + intros [t' H]. discriminate.
Qed.

(** [Rect::operator&=] with a frame: a result that is not empty lies in
    the frame. *)
Lemma rect_and_frame (a : cv.Rect) (c r : Z) :
  let b := cv.rect_and a (cv.mkRect 0 0 c r) in
  (0 < cv.width b)%Z ->
  (0 <= cv.x b /\ 0 <= cv.y b /\ 0 < cv.height b /\
   cv.x b + cv.width b <= c /\ cv.y b + cv.height b <= r)%Z.
Proof.
  unfold cv.rect_and. destruct a as [x y w h].
  cbn [cv.x cv.y cv.width cv.height cv.mkRect].
  match goal with
  | |- context [if ?c then _ else _] => destruct c eqn:E
  end; cbn [cv.x cv.y cv.width cv.height cv.mkRect].
  - lia.
  - apply orb_false_iff in E. rewrite !Z.leb_gt in E. lia.
Qed.

(** C2 (amended).  For a tracker whose [currentScaleFactor] is 1, as the
    multi-scale constructor sets it, and for coordinates and sizes up to
    [2^22]: [init(roi, image)] does not clamp, it stores a box of positive
    size as it is given; [init(pt1, pt2, image)] clamps the rectangle
    spanned by the two points to the frame, and when the two have a part in
    common the stored box is that part: it lies within the frame and
    satisfies [x + width > 0]. *)
Theorem init_box (t : KCFTracker) (image : cv.Image) (fhog : Z * Z * Z) :
  currentScaleFactor t = 1 ->
  (forall roi,
      float_rect roi ->
      (0 < cv.width roi)%Z -> (0 < cv.height roi)%Z ->
      exists t', init t roi image fhog = Returned t' /\
                 _roi t' = cv.to_Rect2f roi) /\
  (forall pt1 pt2,
      let b :=
        cv.rect_and
          (cv.mkRect (Z.min (cv.px pt1) (cv.px pt2))
                     (Z.min (cv.py pt1) (cv.py pt2))
                     (Z.abs (cv.px pt2 - cv.px pt1))
                     (Z.abs (cv.py pt2 - cv.py pt1)))
          (cv.mkRect 0 0 (cv.cols image) (cv.rows image)) in
      (cv.cols image <= 4194304)%Z -> (cv.rows image <= 4194304)%Z ->
      (0 < cv.width b)%Z ->
      exists t',
        init_points t pt1 pt2 image fhog = Returned t' /\
        _roi t' = cv.to_Rect2f b /\
        0 <= cv.x (_roi t') /\ 0 <= cv.y (_roi t') /\
        cv.x (_roi t') + cv.width (_roi t') <= IZR (cv.cols image) /\
        cv.y (_roi t') + cv.height (_roi t') <= IZR (cv.rows image) /\
        0 < cv.x (_roi t') + cv.width (_roi t')).
Proof.
  intros Hc. split.
  - intros roi _ Hw Hh.
    destruct (init_returns t roi image fhog) as [t' Hi]; [lia | lia |].
    exists t'. split; [exact Hi |].
    exact (init_keeps_box t roi image fhog t' Hc Hi).
  - intros pt1 pt2 b _ _ Hb. unfold init_points. fold b.
    destruct (rect_and_frame _ (cv.cols image) (cv.rows image) Hb)
      as (Hx & Hy & Hh & Hxw & Hyh).
    fold b in Hx, Hy, Hh, Hxw, Hyh.
    destruct (init_returns t b image fhog) as [t' Hi]; [lia | lia |].
    exists t'. split; [exact Hi |].
    rewrite (init_keeps_box t b image fhog t' Hc Hi).
    split; [reflexivity |].
    unfold cv.to_Rect2f. cbn [cv.x cv.y cv.width cv.height].
    rewrite <- !plus_IZR.
    repeat split; try (apply IZR_le; lia). apply IZR_lt. lia.
Qed.

Lemma init_box_witness :
  exists t',
    init_points (KCFTracker_new fresh true true true false)
      (cv.mkPoint (-5) 50) (cv.mkPoint 35 90) (cv.mkImage 200 200)
      (24, 24, 31)%Z = Returned t' /\
    _roi t' = cv.mkRect2f 0 50 35 40.
Proof.
  destruct (init_box (KCFTracker_new fresh true true true false)
              (cv.mkImage 200 200) (24, 24, 31)%Z eq_refl)
    as [_ H].
  destruct (H (cv.mkPoint (-5) 50) (cv.mkPoint 35 90))
    as (t' & Hi & Hr & _); [simpl; lia | simpl; lia | reflexivity |].
  exists t'. split; [exact Hi | exact Hr].
Defined.

(** C2, as stated, fails for [init(roi, image)]: a box that starts 5 pixels
    left of the frame is stored with [x = -5]. *)
Lemma init_keeps_box_off_frame :
  exists t',
    init (KCFTracker_new fresh true true true false)
         (cv.mkRect (-5) 50 40 40) (cv.mkImage 200 200) (24, 24, 31)%Z
    = Returned t' /\
    _roi t' = cv.mkRect2f (-5) 50 40 40 /\
    cv.x (_roi t') < 0.
Proof.
  destruct (init_returns (KCFTracker_new fresh true true true false)
              (cv.mkRect (-5) 50 40 40) (cv.mkImage 200 200) (24, 24, 31)%Z)
    as [t' Hi]; [simpl; lia | simpl; lia |].
  exists t'. split; [exact Hi |].
  rewrite (init_keeps_box (KCFTracker_new fresh true true true false)
             _ _ _ t' eq_refl Hi).
  split; [reflexivity | simpl; lra].
Qed.

(** ** The scale sample *)

(** The loop body, with the size test named. *)
Lemma scale_sample_step_eq (t : KCFTracker)
    (extractImage : R -> R -> R -> R -> Z * Z) (fhog : nat -> list R)
    (st : ScaleSample) (i : nat) :
  scale_sample_step t extractImage fhog st i
  = if degenerate (scale_patch_size t extractImage i) then Some st
    else
      let st1 :=
        if (i =? 0)%nat then
          mkSample (mat_init (length (fhog i)) (Z.to_nat (n_scales (cfg t)))
                             (fun _ _ => 0))
                   (Z.to_nat (n_scales (cfg t))) (Some (length (fhog i)))
        else st in
      match totalSize st1 with
      | None => None
      | Some n =>
          if (n <=? length (fhog i))%nat then
            match copyTo_col (map (fun v => nth i (s_hann t) 0 * v)
                                  (firstn n (fhog i)))
                             (xsf st1) (xsf_cols st1) i with
            | Some m => Some (mkSample m (xsf_cols st1) (totalSize st1))
            | None => None
            end
          else None
      end.
Proof. reflexivity. Qed.

Lemma scale_sample_step_skip (t : KCFTracker)
    (extractImage : R -> R -> R -> R -> Z * Z) (fhog : nat -> list R)
    (st : ScaleSample) (i : nat) :
  degenerate (scale_patch_size t extractImage i) = true ->
  scale_sample_step t extractImage fhog st i = Some st.
Proof. intros H. rewrite scale_sample_step_eq, H. reflexivity. Qed.

(** A patch that is not skipped at an index other than 0, while [totalSize]
    has no value, ends the run. *)
Lemma scale_sample_step_unassigned (t : KCFTracker)
    (extractImage : R -> R -> R -> R -> Z * Z) (fhog : nat -> list R)
    (st : ScaleSample) (i : nat) :
  degenerate (scale_patch_size t extractImage i) = false ->
  i <> 0%nat -> totalSize st = None ->
  scale_sample_step t extractImage fhog st i = None.
Proof.
  intros H Hi Hn. rewrite scale_sample_step_eq, H.
  apply Nat.eqb_neq in Hi. cbv zeta. rewrite Hi, Hn. reflexivity.
Qed.

Lemma scale_sample_loop_unassigned (t : KCFTracker)
    (extractImage : R -> R -> R -> R -> Z * Z) (fhog : nat -> list R)
    (st : ScaleSample) (idx : list nat) (k : nat) :
  totalSize st = None -> ~ In 0%nat idx ->
  In k idx -> degenerate (scale_patch_size t extractImage k) = false ->
  scale_sample_loop t extractImage fhog st idx = None.
Proof.
  intros Hn. induction idx as [| i idx IH]; intros H0 Hk Hd; [easy |].
  simpl.
  destruct (degenerate (scale_patch_size t extractImage i)) eqn:E.
  - rewrite scale_sample_step_skip by exact E.
    destruct Hk as [-> | Hk]; [congruence |].
    apply IH; [| exact Hk | exact Hd]. intros C. apply H0. right. exact C.
  - rewrite scale_sample_step_unassigned; [reflexivity | exact E | | exact Hn].
    intros ->. apply H0. left. reflexivity.
Qed.

(** When the patch of index 0 is skipped and a later one is not, the
    sample is never produced. *)
Lemma get_scale_sample_first_skipped (t : KCFTracker)
    (extractImage : R -> R -> R -> R -> Z * Z) (fhog : nat -> list R)
    (k : nat) :
  degenerate (scale_patch_size t extractImage 0) = true ->
  (0 < k < Z.to_nat (n_scales (cfg t)))%nat ->
  degenerate (scale_patch_size t extractImage k) = false ->
  get_scale_sample t extractImage fhog = None.
Proof.
  intros H0 Hk Hd. unfold get_scale_sample.
  destruct (Z.to_nat (n_scales (cfg t))) as [| n] eqn:En; [lia |].
  simpl seq. simpl scale_sample_loop.
  rewrite scale_sample_step_skip by exact H0.
  rewrite (scale_sample_loop_unassigned t extractImage fhog _ _ k);
    [reflexivity | reflexivity | | | exact Hd].
  - intros C. apply in_seq in C. lia.
  - apply in_seq. lia.
Qed.

(** The table of [dsstInit] for the multi-scale constructor: entry [i] is
    [1.05 ^ (16 - i)]. *)
Lemma ceilf_33_half : ceilf (33 / 2) = 17.
Proof. unfold ceilf. rewrite (Zceil_eq 17); [reflexivity | lra]. Qed.

Lemma scale_table_large (i : nat) :
  (i <= 16)%nat -> nth i (scale_table 1.05 33) 0 = 1.05 ^ (16 - i).
Proof.
  intros Hi. unfold scale_table.
  change (Z.to_nat 33) with 33%nat.
  rewrite (nth_map_in _ _ 0 0%nat) by (rewrite length_seq; lia).
  rewrite seq_nth by lia. simpl Nat.add.
  change (IZR 33 / 2) with (33 / 2). rewrite ceilf_33_half.
  rewrite <- Rpower_pow by lra. f_equal.
  rewrite minus_INR by exact Hi. rewrite (INR_IZR_INZ 16).
  change (Z.of_nat 16) with 16%Z. lra.
Qed.

(** C6 fails on the code when the first patch is the degenerate one.  On
    the tracker of a 40 x 40 box, with an extraction that gives no patch for
    a request wider than 85 pixels, the patch of index 0 (87 pixels) is
    skipped and the patch of index 1 (83 pixels) is not: the run stops at
    index 1, where [totalSize] has no value and [xsf] is not allocated. *)
Theorem get_scale_sample_stops_after_first_skip :
  degenerate (scale_patch_size sample_tracker (extract_within 85) 0) = true /\
  degenerate (scale_patch_size sample_tracker (extract_within 85) 1) = false /\
  get_scale_sample sample_tracker (extract_within 85) (constant_fhog 31)
  = None.
Proof.
  assert (Hroi : _roi sample_tracker
                 = cv.to_Rect2f (cv.mkRect 30 30 40 40)).
  { unfold sample_tracker, dsstInit. rewrite update_roi_unit; reflexivity. }
  assert (P : forall i, (i <= 16)%nat ->
            scale_patch_size sample_tracker (extract_within 85) i
            = extract_within 85 (30 + 40 / 2) (30 + 40 / 2)
                (40 * 1.05 ^ (16 - i) * 1) (40 * 1.05 ^ (16 - i) * 1)).
  { intros i Hi. unfold scale_patch_size. rewrite Hroi.
    change (scaleFactors sample_tracker) with (scale_table 1.05 33).
    rewrite scale_table_large by exact Hi. reflexivity. }
  assert (H0 : degenerate
                 (scale_patch_size sample_tracker (extract_within 85) 0)
               = true).
  { rewrite P by lia. unfold extract_within.
    assert (E : Rltb 85 (40 * 1.05 ^ (16 - 0) * 1) = true)
      by (apply Rltb_true; simpl; lra).
    rewrite E. reflexivity. }
  assert (H1 : degenerate
                 (scale_patch_size sample_tracker (extract_within 85) 1)
               = false).
  { rewrite P by lia. unfold extract_within.
    assert (E : Rltb 85 (40 * 1.05 ^ (16 - 1) * 1) = false)
      by (apply Rltb_false; simpl; lra).
    rewrite E.
    assert (F : float2int (40 * 1.05 ^ (16 - 1) * 1) = 83%Z)
      by (apply float2int_pos; [lia | simpl; lra]).
    rewrite F. reflexivity. }
  split; [exact H0 |]. split; [exact H1 |].
  apply (get_scale_sample_first_skipped _ _ _ 1); [exact H0 | | exact H1].
  change (n_scales (cfg sample_tracker)) with 33%Z. lia.
Qed.

(** ** Instances *)


Lemma detect_border_axis_witness :
  exists p_x p_y peak_value reads,
    detect corner_response [] = Some (p_x, p_y, peak_value, [] ++ reads).
Proof.
  destruct (detect_border_axis corner_response [] eq_refl)
    as (p_x & p_y & pv & reads & H & _).
  exists p_x, p_y, pv, reads. exact H.
Defined.

Lemma update_box_clamped_witness :
  exists box t',
    update sample_tracker (cv.mkImage 85 85) still_observation
    = Some (box, t') /\
    (0 <= cv.x box + cv.width box)%Z /\ (cv.x box <= 85 - 1)%Z.
Proof.
  destruct update_sample_still as (t' & Hu & Hr).
  exists (cv.mkRect 30 30 40 40), t'. split; [exact Hu |].
  destruct (update_box_clamped _ _ _ _ _ Hu)
    as (_ & _ & Hx & _ & Hc & _).
  - rewrite Hr. cbn [cv.width cv.mkRect2f]. lra.
  - rewrite Hr. cbn [cv.height cv.mkRect2f]. lra.
  - simpl. lia.
  - simpl. lia.
  - split; [exact Hx |]. apply Hc. simpl. lia.
Defined.

(** ** The constructor *)

(** Every combination of the four switches yields usable hyper-parameters:
    positive regularisation, bandwidth, padding and target width, a learning
    rate strictly between 0 and 1, a cell size of 4 (HOG) or 1 (raw pixels),
    a template size of at least 1, and colour features only together with
    HOG features. *)
Theorem KCFTracker_new_parameters (mem : KCFTracker)
    (hog fixed_window multiscale lab : bool) :
  let p := cfg (KCFTracker_new mem hog fixed_window multiscale lab) in
  0 < lambda p /\ 0 < sigma p /\ 0 < padding p /\
  0 < output_sigma_factor p /\ 0 < interp_factor p < 1 /\
  cell_size p = (if hog then 4 else 1)%Z /\
  (1 <= template_size p)%Z /\ 1 <= scale_step p /\
  _hogfeatures p = hog /\
  (hog = true \/ lab = true -> _labfeatures p = hog && lab).
Proof.
  destruct hog, fixed_window, multiscale, lab; cbn;
    repeat split; try lra; try lia; intros [H | H]; discriminate.
Qed.

(** Multi-scale tracking forces the fixed window and sets the scale
    parameters, whatever the [fixed_window] switch says. *)
Theorem KCFTracker_new_multiscale (mem : KCFTracker) (hog fixed_window lab : bool) :
  let t := KCFTracker_new mem hog fixed_window true lab in
  template_size (cfg t) = 96%Z /\ n_scales (cfg t) = 33%Z /\
  scale_step (cfg t) = 1.05 /\ currentScaleFactor t = 1 /\
  cfg t = cfg (KCFTracker_new mem hog (negb fixed_window) true lab).
Proof. destruct hog, fixed_window, lab; cbn; repeat split. Qed.

(** ** Initialisation from two points *)

(** The two corner points may be given in either order. *)
Theorem init_points_sym (t : KCFTracker) (pt1 pt2 : cv.Point)
    (image : cv.Image) (fhog : Z * Z * Z) :
  init_points t pt1 pt2 image fhog = init_points t pt2 pt1 image fhog.
Proof.
  unfold init_points.
  rewrite (Z.min_comm (cv.px pt1)), (Z.min_comm (cv.py pt1)).
  replace (Z.abs (cv.px pt2 - cv.px pt1)) with (Z.abs (cv.px pt1 - cv.px pt2))
    by lia.
  replace (Z.abs (cv.py pt2 - cv.py pt1)) with (Z.abs (cv.py pt1 - cv.py pt2))
    by lia.
  reflexivity.
Qed.

(** [init] from two points never fails the assertion, whatever the points
    and the frame. *)
Theorem init_points_returns (t : KCFTracker) (pt1 pt2 : cv.Point)
    (image : cv.Image) (fhog : Z * Z * Z) :
  exists t', init_points t pt1 pt2 image fhog = Returned t'.
Proof.
  unfold init_points. apply init_returns.
  - unfold cv.rect_and. cbn [cv.x cv.y cv.width cv.height cv.mkRect].
    match goal with
    | |- context [if ?c then _ else _] => destruct c eqn:E
    end; cbn [cv.width cv.mkRect]; [lia |].
    apply orb_false_iff in E. rewrite !Z.leb_gt in E. lia.
  - unfold cv.rect_and. cbn [cv.x cv.y cv.width cv.height cv.mkRect].
    match goal with
    | |- context [if ?c then _ else _] => destruct c eqn:E
    end; cbn [cv.height cv.mkRect]; [lia |].
    apply orb_false_iff in E. rewrite !Z.leb_gt in E. lia.
Qed.

(** ** Clamping *)

Lemma float2int_le (r : R) : 0 <= r -> IZR (float2int r) <= r.
Proof.
  intros H. unfold float2int. destruct (Rle_dec 0 r); [| lra].
  apply Zfloor_bound.
Qed.


(** ** The box after a change of scale *)

(** [update_roi] resizes the box about its centre, which stays where it is,
    and a second [update_roi] changes nothing. *)
Theorem update_roi_center (t : KCFTracker) :
  let r := _roi t in
  let r' := _roi (update_roi t) in
  cv.x r' + cv.width r' / 2 = cv.x r + cv.width r / 2 /\
  cv.y r' + cv.height r' / 2 = cv.y r + cv.height r / 2 /\
  update_roi (update_roi t) = update_roi t.
Proof.
  unfold update_roi.
  cbn [_roi with_roi cv.x cv.y cv.width cv.height cv.mkRect2f
       base_width base_height currentScaleFactor].
  split; [lra |]. split; [lra |].
  unfold with_roi.
  cbn [cfg currentScaleFactor _roi _scale _tmpl_sz size_patch hann s_hann
       base_width base_height scaleFactors scale_model_width
       scale_model_height min_scale_factor max_scale_factor].
  f_equal. apply mkRect2f_eq; lra.
Qed.



(** ** More on detection *)

(** No element of the matrix exceeds the value [minMaxLoc] returns. *)
Lemma minMaxLoc_max (m : cv.Mat) (i j : nat) (row : list R) (v : R) :
  nth_error m i = Some row -> nth_error row j = Some v ->
  v <= fst (minMaxLoc m).
Proof.
  intros Hr Hv. pose proof (indexed_complete m i j row v Hr Hv) as Hin.
  destruct (fold_max_step_some (indexed m) None _ Hin) as [[[i' j'] v'] Hf].
  destruct (fold_max_step_upper _ _ _ Hf) as [_ Hup].
  unfold minMaxLoc. rewrite Hf. apply (Hup _ Hin).
Qed.

(** On a matrix with at least one element, [minMaxLoc] returns a place
    inside the matrix and the element at that place. *)
Lemma minMaxLoc_in_range (m : cv.Mat) (h w : nat) :
  has_dims m h w = true -> (0 < h)%nat -> (0 < w)%nat ->
  exists i j,
    (i < h)%nat /\ (j < w)%nat /\
    minMaxLoc m = (mat_get m i j, cv.mkPoint (Z.of_nat j) (Z.of_nat i)).
Proof.
  intros Hd Hh Hw.
  pose proof (has_dims_nth m h w 0 Hd Hh) as Hrow0.
  pose proof Hd as Hd'. apply has_dims_spec in Hd'. destruct Hd' as [Hl Hrows].
  destruct (nth_error m 0) as [row0 |] eqn:E0;
    [| apply nth_error_None in E0; lia].
  rewrite (nth_error_nth _ _ _ E0) in Hrow0.
  destruct (nth_error row0 0) as [v0 |] eqn:Ev0;
    [| apply nth_error_None in Ev0; lia].
  pose proof (indexed_complete m 0 0 row0 v0 E0 Ev0) as Hin.
  destruct (fold_max_step_some (indexed m) None _ Hin) as [[[i j] v] Hf].
  destruct (fold_max_step (indexed m) None) as [H | (e & He & H)];
    rewrite Hf in H; [discriminate |].
  inversion H; subst e. clear H.
  apply indexed_sound in He. destruct He as (row & Hr & Hv).
  exists i, j. split; [| split].
  - apply nth_error_lt in Hr. lia.
  - apply nth_error_lt in Hv.
    rewrite (Hrows row (nth_error_In _ _ Hr)) in Hv. exact Hv.
  - unfold minMaxLoc. rewrite Hf. f_equal.
    unfold mat_get. rewrite (nth_error_nth _ _ _ Hr).
    symmetry. apply nth_error_nth. exact Hv.
Qed.

Lemma subPixelPeak_half (left center right : R) :
  left <= center -> right <= center ->
  -0.5 <= subPixelPeak left center right <= 0.5.
Proof.
  intros Hl Hr.
  destruct (Req_dec_T (2 * center - right - left) 0) as [E | E].
  - rewrite subPixelPeak_flat by exact E. lra.
  - apply subPixelPeak_bounded; try assumption.
    destruct (Rlt_dec left center); [left; assumption | right; lra].
Qed.

Lemma mat_get_le_max (m : cv.Mat) (i j : nat) :
  rectangular m = true ->
  (i < cv.mat_rows m)%nat -> (j < cv.mat_cols m)%nat ->
  mat_get m i j <= fst (minMaxLoc m).
Proof.
  intros Hr Hi Hj.
  destruct (nth_error m i) as [row |] eqn:Er;
    [| apply nth_error_None in Er; unfold cv.mat_rows in Hi; lia].
  pose proof (rectangular_row m i row Hr Er) as Hl.
  destruct (nth_error row j) as [v |] eqn:Ev;
    [| apply nth_error_None in Ev; lia].
  unfold mat_get. rewrite (nth_error_nth _ _ _ Er), (nth_error_nth _ _ _ Ev).
  apply (minMaxLoc_max m i j row v Er Ev).
Qed.

(** The peak value [detect] reports is an upper bound of the whole response,
    and the offset it returns is within half a cell of the integer arg-max
    offset on each axis. *)
Theorem detect_offset_near_peak (res : cv.Mat) (log : list (Z * Z)) :
  rectangular res = true ->
  exists p_x p_y peak_value reads,
    detect res log = Some (p_x, p_y, peak_value, reads) /\
    (forall i j, (i < cv.mat_rows res)%nat -> (j < cv.mat_cols res)%nat ->
                 mat_get res i j <= peak_value) /\
    Rabs (p_x - IZR (cv.px (snd (minMaxLoc res))
                     - Z.quot (Z.of_nat (cv.mat_cols res)) 2)) <= 0.5 /\
    Rabs (p_y - IZR (cv.py (snd (minMaxLoc res))
                     - Z.quot (Z.of_nat (cv.mat_rows res)) 2)) <= 0.5.
Proof.
  intros Hr. pose proof (detect_run res log Hr) as H. cbv zeta in H.
  eexists _, _, _, _. split; [exact H |]. split.
  - intros i j Hi Hj. apply mat_get_le_max; assumption.
  - assert (Hn : forall a b,
               (0 <= a < Z.of_nat (cv.mat_rows res))%Z ->
               (0 <= b < Z.of_nat (cv.mat_cols res))%Z ->
               mat_get res (Z.to_nat a) (Z.to_nat b) <= fst (minMaxLoc res)).
    { intros a b Ha Hb. apply mat_get_le_max; try assumption; lia. }
    destruct (minMaxLoc_range res Hr) as [E | [Hx Hy]].
    + rewrite E. cbn [cv.px cv.py]. cbn [Z.ltb Z.compare andb].
      rewrite !minus_IZR. split; apply Rabs_le; lra.
    + split.
      * destruct ((0 <? cv.px (snd (minMaxLoc res)))
                  && (cv.px (snd (minMaxLoc res))
                      <? Z.of_nat (cv.mat_cols res) - 1))%Z eqn:Ex.
        -- apply andb_true_iff in Ex. destruct Ex as [E1 E2].
           apply Z.ltb_lt in E1, E2.
           match goal with
           | |- context [subPixelPeak ?l ?c ?r] =>
               pose proof (subPixelPeak_half l c r) as B
           end.
           rewrite minus_IZR. apply Rabs_le.
           assert (-0.5 <= subPixelPeak
                     (mat_get res (Z.to_nat (cv.py (snd (minMaxLoc res))))
                        (Z.to_nat (cv.px (snd (minMaxLoc res)) - 1)))
                     (fst (minMaxLoc res))
                     (mat_get res (Z.to_nat (cv.py (snd (minMaxLoc res))))
                        (Z.to_nat (cv.px (snd (minMaxLoc res)) + 1))) <= 0.5).
           { apply B; apply Hn; lia. }
           lra.
        -- rewrite minus_IZR. apply Rabs_le. lra.
      * destruct ((0 <? cv.py (snd (minMaxLoc res)))
                  && (cv.py (snd (minMaxLoc res))
                      <? Z.of_nat (cv.mat_rows res) - 1))%Z eqn:Ey.
        -- apply andb_true_iff in Ey. destruct Ey as [E1 E2].
           apply Z.ltb_lt in E1, E2.
           match goal with
           | |- context [subPixelPeak ?l ?c ?r] =>
               pose proof (subPixelPeak_half l c r) as B
           end.
           rewrite minus_IZR. apply Rabs_le.
           assert (-0.5 <= subPixelPeak
                     (mat_get res (Z.to_nat (cv.py (snd (minMaxLoc res)) - 1))
                        (Z.to_nat (cv.px (snd (minMaxLoc res)))))
                     (fst (minMaxLoc res))
                     (mat_get res (Z.to_nat (cv.py (snd (minMaxLoc res)) + 1))
                        (Z.to_nat (cv.px (snd (minMaxLoc res))))) <= 0.5).
           { apply B; apply Hn; lia. }
           lra.
        -- rewrite minus_IZR. apply Rabs_le. lra.
Qed.

Lemma detect_offset_near_peak_witness :
  exists p_x p_y peak_value reads,
    detect corner_response [] = Some (p_x, p_y, peak_value, reads) /\
    Rabs (p_x - IZR (cv.px (snd (minMaxLoc corner_response))
                     - Z.quot (Z.of_nat (cv.mat_cols corner_response)) 2))
    <= 0.5.
Proof.
  destruct (detect_offset_near_peak corner_response [] eq_refl)
    as (p_x & p_y & pv & reads & H & _ & Hx & _).
  exists p_x, p_y, pv, reads. split; assumption.
Defined.

(** ** A frame without motion *)

(** A frame without motion and without change of scale leaves the tracker
    where it is: when the detected offset is zero, the chosen table entry is
    1, and the box is the scaled base box inside the frame, [update] returns
    the box it started from and keeps the scale factor. *)
Theorem update_without_motion (t : KCFTracker) (image : cv.Image)
    (obs : Observation) (res_x res_y pv : R) (reads : list (Z * Z)) :
  detect (response obs) [] = Some (res_x, res_y, pv, reads) ->
  res_x = 0 -> res_y = 0 ->
  scaleFactors_at t (cv.px (detect_scale (scale_response obs))) = Some 1 ->
  min_scale_factor t <= currentScaleFactor t ->
  cv.width (_roi t) = IZR (base_width t) * currentScaleFactor t ->
  cv.height (_roi t) = IZR (base_height t) * currentScaleFactor t ->
  0 <= cv.width (_roi t) -> 0 <= cv.height (_roi t) ->
  0 < cv.x (_roi t) + cv.width (_roi t) ->
  0 < cv.y (_roi t) + cv.height (_roi t) ->
  cv.x (_roi t) < IZR (cv.cols image - 1) ->
  cv.y (_roi t) < IZR (cv.rows image - 1) ->
  exists t',
    update t image obs = Some (cv.to_Rect (_roi t), t') /\
    _roi t' = _roi t /\ currentScaleFactor t' = currentScaleFactor t.
Proof.
  intros Hd Hx Hy Hf Hm Hw Hh Hw0 Hh0 H1 H2 H3 H4.
  apply (update_inside t image obs res_x res_y pv reads (_roi t));
    try assumption.
  rewrite Hx, Hy. destruct (_roi t) as [x y w h].
  cbn [cv.x cv.y cv.width cv.height]. apply mkRect2f_eq; lra.
Qed.

Lemma update_without_motion_witness :
  exists t',
    update sample_tracker (cv.mkImage 85 85) still_observation
    = Some (cv.mkRect 30 30 40 40, t').
Proof.
  assert (Hroi : _roi sample_tracker
                 = cv.to_Rect2f (cv.mkRect 30 30 40 40)).
  { unfold sample_tracker, dsstInit. rewrite update_roi_unit; reflexivity. }
  destruct (detect_peak 24 24 12 12) as [reads Hd]; try lia.
  destruct (update_without_motion sample_tracker (cv.mkImage 85 85)
              still_observation _ _ _ _ Hd) as (t' & Hu & _).
  - change (Z.of_nat 12) with 12%Z. change (Z.quot (Z.of_nat 24) 2) with 12%Z.
    lra.
  - change (Z.of_nat 12) with 12%Z. change (Z.quot (Z.of_nat 24) 2) with 12%Z.
    lra.
  - apply unit_scale; reflexivity.
  - change (currentScaleFactor sample_tracker) with 1.
    eapply Rle_trans; [exact min_scale_factor_40 |].
    assert (0 < 1.05 ^ 116) by (apply pow_lt; lra).
    rewrite <- Rinv_1. apply Rinv_le_contravar; [lra |].
    apply pow_R1_Rle. lra.
  - rewrite Hroi. change (base_width sample_tracker) with 40%Z.
    change (currentScaleFactor sample_tracker) with 1.
    cbn [cv.width cv.to_Rect2f cv.mkRect]. lra.
  - rewrite Hroi. change (base_height sample_tracker) with 40%Z.
    change (currentScaleFactor sample_tracker) with 1.
    cbn [cv.height cv.to_Rect2f cv.mkRect]. lra.
  - rewrite Hroi. cbn [cv.width cv.to_Rect2f cv.mkRect]. lra.
  - rewrite Hroi. cbn [cv.height cv.to_Rect2f cv.mkRect]. lra.
  - rewrite Hroi. cbn [cv.x cv.width cv.to_Rect2f cv.mkRect]. lra.
  - rewrite Hroi. cbn [cv.y cv.height cv.to_Rect2f cv.mkRect]. lra.
  - rewrite Hroi, minus_IZR. cbn [cv.x cv.to_Rect2f cv.mkRect cv.cols]. lra.
  - rewrite Hroi, minus_IZR. cbn [cv.y cv.to_Rect2f cv.mkRect cv.rows]. lra.
  - rewrite Hroi in Hu. exists t'. rewrite Hu. do 2 f_equal.
    unfold cv.to_Rect, cv.to_Rect2f, cv.mkRect.
    cbn [cv.x cv.y cv.width cv.height].
    rewrite !cvRound_IZR. reflexivity.
Defined.

(** ** The scale table and the regression targets *)

Lemma Zceil_half (n : Z) : Zceil (IZR n / 2) = ((n + 1) / 2)%Z.
Proof.
  apply Zceil_eq.
  pose proof (Z.div_mod (n + 1) 2 ltac:(lia)) as E.
  pose proof (Z.mod_pos_bound (n + 1) 2 ltac:(lia)) as B.
  assert (H1 : (2 * ((n + 1) / 2) - 2 < n)%Z) by lia.
  assert (H2 : (n <= 2 * ((n + 1) / 2))%Z) by lia.
  apply IZR_lt in H1. apply IZR_le in H2.
  rewrite minus_IZR, mult_IZR in H1. rewrite mult_IZR in H2. lra.
Qed.

Lemma ceilf_half_center (n : Z) :
  (1 <= n)%Z ->
  ceilf (IZR n / 2) - INR (Z.to_nat ((n - 1) / 2)) - 1 = 0.
Proof.
  intros Hn. unfold ceilf. rewrite Zceil_half.
  rewrite INR_IZR_INZ, Z2Nat.id by (apply Z.div_pos; lia).
  assert (E : ((n + 1) / 2 = (n - 1) / 2 + 1)%Z).
  { replace (n + 1)%Z with (n - 1 + 1 * 2)%Z by lia.
    rewrite Z.div_add by lia. reflexivity. }
  rewrite E, plus_IZR. lra.
Qed.

Lemma center_lt (n : Z) : (1 <= n)%Z -> (Z.to_nat ((n - 1) / 2) < Z.to_nat n)%nat.
Proof.
  intros Hn. apply Z2Nat.inj_lt; try lia.
  - apply Z.div_pos; lia.
  - apply Z.div_lt_upper_bound; lia.
Qed.

Lemma nth_scale_table (step : R) (n : Z) (i : nat) :
  (i < Z.to_nat n)%nat ->
  nth i (scale_table step n) 0
  = Rpower step (ceilf (IZR n / 2) - INR i - 1).
Proof.
  intros Hi. unfold scale_table.
  rewrite (nth_map_in _ _ 0 0%nat) by (rewrite length_seq; exact Hi).
  rewrite seq_nth by exact Hi. reflexivity.
Qed.

(** The table of scale factors is a geometric sequence: it has [n_scales]
    entries, each entry is [scale_step] times the next one, and the entry in
    the middle, at index [(n - 1) / 2], is 1.  With a step above 1 the
    entries decrease. *)
Theorem scale_table_geometric (step : R) (n : Z) :
  0 < step -> (1 <= n)%Z ->
  length (scale_table step n) = Z.to_nat n /\
  (forall i, (S i < Z.to_nat n)%nat ->
             nth i (scale_table step n) 0
             = step * nth (S i) (scale_table step n) 0) /\
  nth (Z.to_nat ((n - 1) / 2)) (scale_table step n) 0 = 1 /\
  (1 < step ->
   forall i, (S i < Z.to_nat n)%nat ->
             nth (S i) (scale_table step n) 0 < nth i (scale_table step n) 0).
Proof.
  intros Hs Hn.
  assert (Hstep : forall i, (S i < Z.to_nat n)%nat ->
             nth i (scale_table step n) 0
             = step * nth (S i) (scale_table step n) 0).
  { intros i Hi. rewrite !nth_scale_table by lia.
    rewrite <- (Rpower_1 step Hs) at 2. rewrite <- Rpower_plus.
    f_equal. rewrite S_INR. lra. }
  split; [| split; [| split]].
  - unfold scale_table. rewrite length_map, length_seq. reflexivity.
  - exact Hstep.
  - rewrite nth_scale_table by (apply center_lt; exact Hn).
    rewrite ceilf_half_center by exact Hn. apply Rpower_O. exact Hs.
  - intros H1 i Hi. rewrite (Hstep i Hi).
    assert (0 < nth (S i) (scale_table step n) 0).
    { rewrite nth_scale_table by lia. unfold Rpower. apply exp_pos. }
    nra.
Qed.

Lemma scale_table_geometric_witness :
  length (scale_table 1.05 33) = 33%nat /\
  nth 16 (scale_table 1.05 33) 0 = 1.
Proof.
  destruct (scale_table_geometric 1.05 33 ltac:(lra) ltac:(lia))
    as (H1 & _ & H2 & _).
  split; [exact H1 | exact H2].
Defined.

(** The scale target is a Gaussian over the scale index: for a
    [scale_sigma_factor] of at least 0.001 it has [n_scales] entries in
    [0, 1], and its peak 1 sits at index [(n - 1) / 2], where the scale
    table holds the factor 1. *)
Theorem computeYsf_peak (t : KCFTracker) :
  (1 <= n_scales (cfg t))%Z -> 0 < scale_step (cfg t) ->
  0.001 <= scale_sigma_factor (cfg t) ->
  length (computeYsf t) = Z.to_nat (n_scales (cfg t)) /\
  Forall (fun v => 0 <= v <= 1) (computeYsf t) /\
  nth (Z.to_nat ((n_scales (cfg t) - 1) / 2)) (computeYsf t) 0 = 1 /\
  nth (Z.to_nat ((n_scales (cfg t) - 1) / 2))
      (scale_table (scale_step (cfg t)) (n_scales (cfg t))) 0 = 1.
Proof.
  intros Hn Hs Hf. unfold computeYsf.
  set (n := n_scales (cfg t)) in *.
  set (s := IZR n / sqrt (IZR n) * scale_sigma_factor (cfg t)).
  split; [| split; [| split]].
  - rewrite length_map, length_seq. reflexivity.
  - apply Forall_forall. intros v Hv. apply in_map_iff in Hv.
    destruct Hv as (i & <- & _). apply exp_f32_range.
    assert (0 <= s * s) by nra.
    assert (0 <= / (s * s)).
    { destruct (Req_dec_T (s * s) 0) as [-> | E].
      - rewrite Rinv_0. lra.
      - left. apply Rinv_0_lt_compat. lra. }
    assert (0 <= (INR i + 1 - ceilf (IZR n / 2)) ^ 2) by (apply pow2_ge_0).
    unfold Rdiv. nra.
  - rewrite (nth_map_in _ _ 0 0%nat)
      by (rewrite length_seq; apply center_lt; exact Hn).
    rewrite seq_nth by (apply center_lt; exact Hn). simpl Nat.add.
    pose proof (ceilf_half_center n Hn) as E.
    replace (INR (Z.to_nat ((n - 1) / 2)) + 1 - ceilf (IZR n / 2)) with 0
      by lra.
    replace (- 0.5 * 0 ^ 2 / (s * s)) with 0 by (unfold Rdiv; ring).
    apply exp_f32_0.
  - rewrite nth_scale_table by (apply center_lt; exact Hn).
    rewrite ceilf_half_center by exact Hn. apply Rpower_O. exact Hs.
Qed.

Lemma computeYsf_peak_witness :
  nth 16 (computeYsf (KCFTracker_new fresh true true true false)) 0 = 1.
Proof.
  destruct (computeYsf_peak (KCFTracker_new fresh true true true false))
    as (_ & _ & H & _).
  - simpl. lia.
  - simpl. lra.
  - simpl. lra.
  - exact H.
Defined.

(** The translation target is a Gaussian over the cells of the template:
    for a [padding] of at most 1000 and an [output_sigma_factor] of at least
    0.001, a [sizey] x [sizex] matrix with entries in [0, 1] whose value at
    the centre cell [(sizey / 2, sizex / 2)] is 1. *)
Theorem createGaussianPeak_center (t : KCFTracker) (sizey sizex : Z) :
  (1 <= sizey)%Z -> (1 <= sizex)%Z ->
  0 < padding (cfg t) <= 1000 -> 0.001 <= output_sigma_factor (cfg t) ->
  has_dims (createGaussianPeak t sizey sizex)
           (Z.to_nat sizey) (Z.to_nat sizex) = true /\
  Forall (Forall (fun v => 0 <= v <= 1)) (createGaussianPeak t sizey sizex) /\
  mat_get (createGaussianPeak t sizey sizex)
          (Z.to_nat (sizey / 2)) (Z.to_nat (sizex / 2)) = 1.
Proof.
  intros Hy Hx Hp Hf. unfold createGaussianPeak.
  set (os := sqrt (IZR sizex * IZR sizey) / padding (cfg t)
             * output_sigma_factor (cfg t)).
  split; [apply has_dims_init | split].
  - apply Forall_forall. intros row Hrow. unfold mat_init in Hrow.
    apply in_map_iff in Hrow. destruct Hrow as (i & <- & _).
    apply Forall_forall. intros v Hv. apply in_map_iff in Hv.
    destruct Hv as (j & <- & _). apply exp_f32_range.
    assert (0 <= os * os) by nra.
    assert (0 <= / (os * os)).
    { destruct (Req_dec_T (os * os) 0) as [-> | E].
      - rewrite Rinv_0. lra.
      - left. apply Rinv_0_lt_compat. lra. }
    match goal with
    | |- _ * IZR (?a * ?a + ?b * ?b) <= 0 =>
        assert (0 <= IZR (a * a + b * b))
          by (apply IZR_le; generalize a b; intros; nia);
        generalize dependent (IZR (a * a + b * b))
    end.
    unfold Rdiv. generalize dependent (/ (os * os)). intros a Ha b Hb. nra.
  - rewrite mat_get_init.
    + rewrite !Z2Nat.id by (apply Z.div_pos; lia).
      rewrite !Z.quot_div_nonneg by lia.
      rewrite !Z.sub_diag. simpl IZR. rewrite Rmult_0_r. apply exp_f32_0.
    + apply Z2Nat.inj_lt; try lia; [apply Z.div_pos; lia |].
      apply Z.div_lt_upper_bound; lia.
    + apply Z2Nat.inj_lt; try lia; [apply Z.div_pos; lia |].
      apply Z.div_lt_upper_bound; lia.
Qed.

Lemma createGaussianPeak_center_witness :
  mat_get (createGaussianPeak (KCFTracker_new fresh true true true false)
                              24 24) 12 12 = 1.
Proof.
  destruct (createGaussianPeak_center
              (KCFTracker_new fresh true true true false) 24 24)
    as (_ & _ & H); [lia | lia | simpl; lra | simpl; lra |].
  exact H.
Defined.



(** ** The cosine windows *)

Lemma hanning_range (n : Z) (i : nat) : 0 <= hanning n i <= 1.
Proof.
  unfold hanning.
  pose proof (COS_bound (2 * PI * INR i / IZR (n - 1))). lra.
Qed.

Lemma length_hann_axis (n : Z) : length (hann_axis n) = Z.to_nat n.
Proof. unfold hann_axis. rewrite length_map, length_seq. reflexivity. Qed.

Lemma hann_axis_range (n : Z) : Forall (fun v => 0 <= v <= 1) (hann_axis n).
Proof.
  apply Forall_forall. intros v Hv. unfold hann_axis in Hv.
  apply in_map_iff in Hv. destruct Hv as (i & <- & _). apply hanning_range.
Qed.

Lemma length_concat_rows (A : Type) (w : nat) (m : list (list A)) :
  (forall r, In r m -> length r = w) ->
  length (concat m) = (length m * w)%nat.
Proof.
  induction m as [| r m IH]; intros H; [reflexivity |].
  simpl. rewrite length_app, (H r) by (left; reflexivity).
  rewrite IH; [reflexivity |]. intros r' Hr'. apply H. right. exact Hr'.
Qed.

(** A cosine window takes values in [0, 1] and is symmetric about the middle
    of its axis: entries [i] and [n - 1 - i] are equal. *)
Theorem hanning_symmetric (n : Z) (i : nat) :
  (2 <= n)%Z -> (i <= Z.to_nat (n - 1))%nat ->
  0 <= hanning n i <= 1 /\
  hanning n (Z.to_nat (n - 1) - i) = hanning n i.
Proof.
  intros Hn Hi. split; [apply hanning_range |].
  unfold hanning. f_equal. f_equal.
  rewrite minus_INR by exact Hi.
  rewrite (INR_IZR_INZ (Z.to_nat (n - 1))), Z2Nat.id by lia.
  assert (Hnz : IZR (n - 1) <> 0) by (apply not_0_IZR; lia).
  replace (2 * PI * (IZR (n - 1) - INR i) / IZR (n - 1))
    with (2 * PI - 2 * PI * INR i / IZR (n - 1)) by (field; exact Hnz).
  rewrite cos_minus, cos_2PI, sin_2PI. ring.
Qed.

Lemma hanning_symmetric_witness : hanning 33 (32 - 5) = hanning 33 5.
Proof.
  destruct (hanning_symmetric 33 5) as [_ H]; [lia | simpl; lia |].
  exact H.
Defined.

(** For feature maps of at least 2 x 2 cells the spatial window has the
    shape of the feature maps it multiplies ([size_patch[2]] rows of
    [size_patch[0] * size_patch[1]] values with HOG features,
    [size_patch[0]] x [size_patch[1]] with gray features), and all its
    weights lie in [0, 1]. *)
Theorem createHanningMats_window (t : KCFTracker) :
  (2 <= fst (fst (size_patch t)))%Z ->
  (2 <= snd (fst (size_patch t)))%Z ->
  (0 < snd (size_patch t))%Z ->
  valid_features t (createHanningMats t) = true /\
  Forall (Forall (fun v => 0 <= v <= 1)) (createHanningMats t).
Proof.
  unfold valid_features, createHanningMats.
  destruct (size_patch t) as [[sp0 sp1] sp2]. cbn [fst snd].
  intros H0 H1 H2.
  set (hann2d := map (fun a => map (fun b => a * b) (hann_axis sp1))
                     (hann_axis sp0)).
  assert (Hrows : forall r, In r hann2d -> length r = Z.to_nat sp1).
  { intros r Hr. unfold hann2d in Hr. apply in_map_iff in Hr.
    destruct Hr as (a & <- & _). rewrite length_map. apply length_hann_axis. }
  assert (Hlen : length hann2d = Z.to_nat sp0).
  { unfold hann2d. rewrite length_map. apply length_hann_axis. }
  assert (Hrange : Forall (Forall (fun v => 0 <= v <= 1)) hann2d).
  { apply Forall_forall. intros r Hr. unfold hann2d in Hr.
    apply in_map_iff in Hr. destruct Hr as (a & <- & Ha).
    apply Forall_forall. intros v Hv. apply in_map_iff in Hv.
    destruct Hv as (b & <- & Hb).
    pose proof (proj1 (Forall_forall _ _) (hann_axis_range sp0) a Ha).
    pose proof (proj1 (Forall_forall _ _) (hann_axis_range sp1) b Hb).
    cbv beta in *. nra. }
  replace ((0 <? sp0)%Z) with true by (symmetry; apply Z.ltb_lt; lia).
  replace ((0 <? sp1)%Z) with true by (symmetry; apply Z.ltb_lt; lia).
  replace ((0 <? sp2)%Z) with true by (symmetry; apply Z.ltb_lt; exact H2).
  cbn [andb].
  destruct (_hogfeatures (cfg t)).
  - split.
    + apply has_dims_spec. split; [apply repeat_length |].
      intros r Hr. apply repeat_spec in Hr. subst r.
      rewrite (length_concat_rows _ (Z.to_nat sp1)) by exact Hrows.
      rewrite Hlen. reflexivity.
    + apply Forall_forall. intros r Hr. apply repeat_spec in Hr. subst r.
      apply Forall_concat. exact Hrange.
  - split; [| exact Hrange].
    apply has_dims_spec. split; [exact Hlen | exact Hrows].
Qed.

Lemma createHanningMats_window_witness :
  valid_features hog_tracker_2x3 (createHanningMats hog_tracker_2x3) = true.
Proof.
  destruct (createHanningMats_window hog_tracker_2x3) as [H _];
    [simpl; lia | simpl; lia | reflexivity |].
  exact H.
Defined.

(** ** The template size *)

Lemma quot_block (a c : Z) :
  (0 <= a)%Z -> (0 < c)%Z -> (a - c < Z.quot a c * c <= a)%Z.
Proof.
  intros Ha Hc. rewrite Z.quot_div_nonneg by lia.
  pose proof (Z.div_mod a c ltac:(lia)).
  pose proof (Z.mod_pos_bound a c Hc). nia.
Qed.

Lemma float2int_ge (z : Z) (r : R) :
  (0 <= z)%Z -> IZR z <= r -> (z <= float2int r)%Z.
Proof.
  intros Hz H. unfold float2int.
  assert (0 <= IZR z) by (apply IZR_le; exact Hz).
  destruct (Rle_dec 0 r); [| lra].
  apply Zfloor_lub. exact H.
Qed.

Lemma float2int_upper (z : Z) (r : R) :
  0 <= r <= IZR z -> (0 <= float2int r <= z)%Z.
Proof.
  intros [H0 H]. split; [apply float2int_nonneg; lra |].
  apply le_IZR. pose proof (float2int_le r H0). lra.
Qed.

(** With HOG features the template is a whole number of blocks of
    [2 * cell_size] pixels on each side; with gray features both sides are
    even. *)
Theorem getFeatures_template_grid (t : KCFTracker) :
  let sz := _tmpl_sz (getFeatures_template t) in
  if _hogfeatures (cfg t)
  then (2 * cell_size (cfg t) | fst sz)%Z /\ (2 * cell_size (cfg t) | snd sz)%Z
  else (2 | fst sz)%Z /\ (2 | snd sz)%Z.
Proof.
  unfold getFeatures_template.
  match goal with
  | |- context [if (1 <? ?a)%Z then ?b else ?c] =>
      destruct (if (1 <? a)%Z then b else c) as [[s tw] th]
  end.
  destruct (_hogfeatures (cfg t));
    cbn [_tmpl_sz with_template fst snd]; split;
    match goal with
    | |- (_ | Z.quot ?a ?b * 2 * ?c + ?c * 2)%Z =>
        exists (Z.quot a b + 1)%Z; ring
    | |- (_ | Z.quot ?a ?b * 2)%Z => exists (Z.quot a b); ring
    end.
Qed.

(** In fixed-window mode ([template_size > 1]) a target of at least one
    pixel, padded by a factor of at least 1, gets a positive [_scale] and a
    template that is not empty and not larger than [template_size] on either
    side, plus one block of [2 * cell_size] with HOG features. *)
Theorem getFeatures_template_fixed_window (t : KCFTracker) :
  (1 < template_size (cfg t))%Z ->
  (0 < cell_size (cfg t))%Z ->
  1 <= padding (cfg t) ->
  1 <= cv.width (_roi t) -> 1 <= cv.height (_roi t) ->
  let t' := getFeatures_template t in
  let bound := if _hogfeatures (cfg t)
               then (template_size (cfg t) + 2 * cell_size (cfg t))%Z
               else template_size (cfg t) in
  0 < _scale t' /\
  (0 <= fst (_tmpl_sz t') <= bound)%Z /\
  (0 <= snd (_tmpl_sz t') <= bound)%Z /\
  (_hogfeatures (cfg t) = true ->
   (2 * cell_size (cfg t) <= fst (_tmpl_sz t'))%Z /\
   (2 * cell_size (cfg t) <= snd (_tmpl_sz t'))%Z).
Proof.
  intros Hts Hc Hp Hw Hh. unfold getFeatures_template.
  replace ((1 <? template_size (cfg t))%Z) with true
    by (symmetry; apply Z.ltb_lt; exact Hts).
  set (pw := float2int (cv.width (_roi t) * padding (cfg t))).
  set (ph := float2int (cv.height (_roi t) * padding (cfg t))).
  assert (Hpw : (1 <= pw)%Z).
  { apply float2int_ge; [lia |]. nra. }
  assert (Hph : (1 <= ph)%Z).
  { apply float2int_ge; [lia |]. nra. }
  set (ts := template_size (cfg t)) in *.
  set (s := if (ph <=? pw)%Z then IZR pw / IZR ts else IZR ph / IZR ts).
  assert (Hts' : 1 < IZR ts) by (apply IZR_lt; exact Hts).
  assert (Hpw' : 1 <= IZR pw) by (apply IZR_le; exact Hpw).
  assert (Hph' : 1 <= IZR ph) by (apply IZR_le; exact Hph).
  assert (Hs : 0 < s /\ IZR pw <= s * IZR ts /\ IZR ph <= s * IZR ts).
  { unfold s. destruct (Z.leb_spec ph pw) as [L | L].
    - apply IZR_le in L. split; [apply Rdiv_lt_0_compat; lra |].
      replace (IZR pw / IZR ts * IZR ts) with (IZR pw) by (field; lra). lra.
    - apply IZR_lt in L. split; [apply Rdiv_lt_0_compat; lra |].
      replace (IZR ph / IZR ts * IZR ts) with (IZR ph) by (field; lra). lra. }
  destruct Hs as (Hs0 & Hsw & Hsh).
  assert (Htw : (0 <= float2int (IZR pw / s) <= ts)%Z).
  { apply float2int_upper. split.
    - apply Rlt_le, Rdiv_lt_0_compat; lra.
    - apply (Rmult_le_reg_r s); [exact Hs0 |].
      replace (IZR pw / s * s) with (IZR pw) by (field; lra). lra. }
  assert (Hth : (0 <= float2int (IZR ph / s) <= ts)%Z).
  { apply float2int_upper. split.
    - apply Rlt_le, Rdiv_lt_0_compat; lra.
    - apply (Rmult_le_reg_r s); [exact Hs0 |].
      replace (IZR ph / s * s) with (IZR ph) by (field; lra). lra. }
  set (tw := float2int (IZR pw / s)) in *.
  set (th := float2int (IZR ph / s)) in *.
  cbn zeta.
  pose proof (quot_block tw (2 * cell_size (cfg t)) ltac:(lia) ltac:(lia)).
  pose proof (quot_block th (2 * cell_size (cfg t)) ltac:(lia) ltac:(lia)).
  pose proof (quot_block tw 2 ltac:(lia) ltac:(lia)).
  pose proof (quot_block th 2 ltac:(lia) ltac:(lia)).
  assert (0 <= Z.quot tw (2 * cell_size (cfg t)))%Z
    by (apply Z.quot_pos; lia).
  assert (0 <= Z.quot th (2 * cell_size (cfg t)))%Z
    by (apply Z.quot_pos; lia).
  assert (0 <= Z.quot tw 2)%Z by (apply Z.quot_pos; lia).
  assert (0 <= Z.quot th 2)%Z by (apply Z.quot_pos; lia).
  destruct (_hogfeatures (cfg t)); cbn [_scale _tmpl_sz with_template fst snd];
    (split; [exact Hs0 |]); repeat split; try nia; try discriminate.
Qed.

Lemma getFeatures_template_fixed_window_witness :
  0 < _scale (getFeatures_template
                (with_roi hog_tracker (cv.mkRect2f 30 30 40 40))).
Proof.
  destruct (getFeatures_template_fixed_window
              (with_roi hog_tracker (cv.mkRect2f 30 30 40 40))) as [H _];
    try (simpl; lia); try (simpl; lra).
  exact H.
Defined.

(** ** The scale model of [dsstInit] *)

Lemma dsstInit_model (t : KCFTracker) (roi : cv.Rect) (image : cv.Image) :
  let f := if (scale_max_area (cfg t) <? cv.width roi * cv.height roi)%Z
           then sqrt (IZR (scale_max_area (cfg t))
                      / IZR (cv.width roi * cv.height roi))
           else 1 in
  scale_model_width (dsstInit t roi image)
  = float2int (IZR (cv.width roi) * f) /\
  scale_model_height (dsstInit t roi image)
  = float2int (IZR (cv.height roi) * f) /\
  min_scale_factor (dsstInit t roi image)
  = Rpower (scale_step (cfg t))
      (ceilf (ln (Rmax (5 / IZR (cv.width roi)) (5 / IZR (cv.height roi))
                  * (1 + scale_padding (cfg t))) / 0.0086)) /\
  max_scale_factor (dsstInit t roi image)
  = Rpower (scale_step (cfg t))
      (floorf (ln (Rmin (IZR (cv.rows image) / IZR (cv.height roi))
                        (IZR (cv.cols image) / IZR (cv.width roi)))
               / 0.0086)).
Proof. repeat split. Qed.

(** The scale model never has more pixels than [scale_max_area], and is
    never larger than the target on either side. *)
Theorem dsstInit_model_area (t : KCFTracker) (roi : cv.Rect)
    (image : cv.Image) :
  (0 <= cv.width roi)%Z -> (0 <= cv.height roi)%Z ->
  (0 <= scale_max_area (cfg t))%Z ->
  let t' := dsstInit t roi image in
  (0 <= scale_model_width t' <= cv.width roi)%Z /\
  (0 <= scale_model_height t' <= cv.height roi)%Z /\
  (scale_model_width t' * scale_model_height t' <= scale_max_area (cfg t))%Z.
Proof.
  intros Hw Hh Ha t'.
  destruct (dsstInit_model t roi image) as (Ew & Eh & _).
  fold t' in Ew, Eh. rewrite Ew, Eh. clear Ew Eh t'.
  set (bw := cv.width roi) in *. set (bh := cv.height roi) in *.
  set (A := scale_max_area (cfg t)) in *.
  assert (Hw' : 0 <= IZR bw) by (apply IZR_le; exact Hw).
  assert (Hh' : 0 <= IZR bh) by (apply IZR_le; exact Hh).
  assert (Ha' : 0 <= IZR A) by (apply IZR_le; exact Ha).
  destruct (Z.ltb_spec A (bw * bh)) as [L | L].
  - assert (Hp : 0 < IZR (bw * bh)) by (apply IZR_lt; lia).
    set (f := sqrt (IZR A / IZR (bw * bh))).
    assert (Hq : 0 <= IZR A / IZR (bw * bh) < 1).
    { split.
      - apply Rmult_le_pos; [exact Ha' |]. left. apply Rinv_0_lt_compat, Hp.
      - apply (Rmult_lt_reg_r (IZR (bw * bh))); [exact Hp |].
        replace (IZR A / IZR (bw * bh) * IZR (bw * bh)) with (IZR A)
          by (field; lra).
        apply IZR_lt in L. lra. }
    assert (Hf0 : 0 <= f) by apply sqrt_pos.
    assert (Hff : f * f = IZR A / IZR (bw * bh))
      by (apply sqrt_sqrt; lra).
    assert (Hf1 : f <= 1).
    { destruct (Rle_dec f 1) as [? | N]; [assumption |]. nra. }
    pose proof (float2int_upper bw (IZR bw * f) ltac:(split; nra)) as Bw.
    pose proof (float2int_upper bh (IZR bh * f) ltac:(split; nra)) as Bh.
    pose proof (float2int_le (IZR bw * f) ltac:(nra)) as Lw.
    pose proof (float2int_le (IZR bh * f) ltac:(nra)) as Lh.
    split; [exact Bw | split; [exact Bh |]].
    apply le_IZR. rewrite mult_IZR.
    assert (0 <= IZR (float2int (IZR bw * f))) by (apply IZR_le; lia).
    assert (0 <= IZR (float2int (IZR bh * f))) by (apply IZR_le; lia).
    assert (E : IZR bw * f * (IZR bh * f) = IZR A).
    { replace (IZR bw * f * (IZR bh * f)) with (IZR bw * IZR bh * (f * f))
        by ring.
      rewrite Hff, mult_IZR. rewrite mult_IZR in Hp. field.
      repeat split; intros C; rewrite C in Hp; lra. }
    rewrite <- E.
    apply Rmult_le_compat; assumption.
  - rewrite !Rmult_1_r, !float2int_IZR. lia.
Qed.

Lemma dsstInit_model_area_witness :
  (scale_model_width sample_tracker * scale_model_height sample_tracker
   <= 512)%Z.
Proof.
  apply (dsstInit_model_area
           (getFeatures (with_roi (KCFTracker_new fresh true true true false)
                                  (cv.to_Rect2f (cv.mkRect 30 30 40 40)))
                        true (24, 24, 31)%Z)
           (cv.mkRect 30 30 40 40) (cv.mkImage 85 85)); simpl; lia.
Defined.



(** ** The scale sample when the first patch is cut *)

Lemma length_set_nth (l : list R) (i : nat) (v : R) :
  (i < length l)%nat -> length (set_nth l i v) = length l.
Proof.
  intros Hi. unfold set_nth.
  rewrite length_app, length_firstn. cbn [length]. rewrite length_skipn. lia.
Qed.

Lemma nth_set_nth (l : list R) (i j : nat) (v : R) :
  (i < length l)%nat ->
  nth j (set_nth l i v) 0 = if (j =? i)%nat then v else nth j l 0.
Proof.
  intros Hi. unfold set_nth.
  assert (Hf : length (firstn i l) = i) by (apply firstn_length_le; lia).
  destruct (Nat.eqb_spec j i) as [-> | Hne].
  - rewrite app_nth2 by lia. rewrite Hf, Nat.sub_diag. reflexivity.
  - destruct (Nat.lt_ge_cases j i) as [Hlt | Hge].
    + rewrite app_nth1 by lia. rewrite nth_firstn.
      apply Nat.ltb_lt in Hlt. rewrite Hlt. reflexivity.
    + rewrite app_nth2 by lia. rewrite Hf.
      destruct (j - i)%nat as [| d] eqn:Ed; [lia |].
      cbn [nth]. rewrite nth_skipn. f_equal. lia.
Qed.

(** Writing a column of the right length into a matrix changes that column
    and nothing else. *)
Lemma copyTo_col_spec (src : list R) (m : cv.Mat) (h w i : nat) :
  has_dims m h w = true -> length src = h -> (i < w)%nat ->
  exists m',
    copyTo_col src m w i = Some m' /\
    has_dims m' h w = true /\
    forall r j, (r < h)%nat ->
      mat_get m' r j = if (j =? i)%nat then nth r src 0 else mat_get m r j.
Proof.
  intros Hd Hs Hi. unfold copyTo_col.
  apply Nat.ltb_lt in Hi as Hi'. rewrite Hi'.
  pose proof (proj1 (has_dims_spec _ _ _) Hd) as [Hl Hr].
  unfold cv.mat_rows. rewrite Hs, Hl, Nat.eqb_refl.
  eexists. split; [reflexivity |].
  assert (Hrow : forall r, (r < h)%nat ->
            nth r (map (fun rv => set_nth (fst rv) i (snd rv)) (combine m src)) []
            = set_nth (nth r m []) i (nth r src 0)).
  { intros r Hr'.
    rewrite (nth_map_in _ _ [] ([], 0))
      by (rewrite length_combine; lia).
    rewrite combine_nth by lia. reflexivity. }
  split.
  - apply has_dims_spec. split.
    + rewrite length_map, length_combine. lia.
    + intros row Hrow'. apply in_map_iff in Hrow'.
      destruct Hrow' as ([a b] & <- & Hin). simpl.
      apply in_combine_l in Hin. rewrite length_set_nth; rewrite (Hr a Hin); lia.
  - intros r j Hr'. unfold mat_get. rewrite Hrow by exact Hr'.
    apply nth_set_nth. rewrite (has_dims_nth m h w r Hd Hr'). exact Hi.
Qed.

(** One iteration that is not skipped, from a state whose sample is
    allocated. *)
Lemma scale_sample_step_copy (t : KCFTracker)
    (extractImage : R -> R -> R -> R -> Z * Z) (fhog : nat -> list R)
    (st : ScaleSample) (i N : nat) :
  degenerate (scale_patch_size t extractImage i) = false ->
  i <> 0%nat ->
  totalSize st = Some N ->
  xsf_cols st = Z.to_nat (n_scales (cfg t)) ->
  has_dims (xsf st) N (Z.to_nat (n_scales (cfg t))) = true ->
  (i < Z.to_nat (n_scales (cfg t)))%nat ->
  (N <= length (fhog i))%nat ->
  exists st',
    scale_sample_step t extractImage fhog st i = Some st' /\
    totalSize st' = Some N /\
    xsf_cols st' = Z.to_nat (n_scales (cfg t)) /\
    has_dims (xsf st') N (Z.to_nat (n_scales (cfg t))) = true /\
    forall r j, (r < N)%nat ->
      mat_get (xsf st') r j
      = if (j =? i)%nat then nth i (s_hann t) 0 * nth r (fhog i) 0
        else mat_get (xsf st) r j.
Proof.
  intros Hdeg Hi0 Ht Hc Hd Hi HN.
  rewrite scale_sample_step_eq, Hdeg.
  apply Nat.eqb_neq in Hi0. rewrite Hi0. cbv zeta. rewrite Ht.
  apply Nat.leb_le in HN as HN'. rewrite HN'.
  destruct (copyTo_col_spec
              (map (fun v => nth i (s_hann t) 0 * v) (firstn N (fhog i)))
              (xsf st) N (Z.to_nat (n_scales (cfg t))) i Hd)
    as (m' & E & Hd' & Hm');
    [rewrite length_map; apply firstn_length_le; exact HN | exact Hi |].
  rewrite Hc, E. eexists. split; [reflexivity |].
  cbn [totalSize xsf_cols xsf]. repeat split; try assumption.
  intros r j Hr. rewrite Hm' by exact Hr.
  destruct (j =? i)%nat; [| reflexivity].
  rewrite (nth_map_in _ _ 0 0)
    by (rewrite firstn_length_le by exact HN; exact Hr).
  rewrite nth_firstn. apply Nat.ltb_lt in Hr. rewrite Hr. reflexivity.
Qed.

(** The rest of the loop, from index [k >= 1] on. *)
Lemma scale_sample_loop_columns (t : KCFTracker)
    (extractImage : R -> R -> R -> R -> Z * Z) (fhog : nat -> list R)
    (N : nat) :
  (forall i, (i < Z.to_nat (n_scales (cfg t)))%nat ->
             degenerate (scale_patch_size t extractImage i) = false ->
             (N <= length (fhog i))%nat) ->
  forall (m k : nat) (st : ScaleSample),
    (k + m = Z.to_nat (n_scales (cfg t)))%nat -> (1 <= k)%nat ->
    totalSize st = Some N ->
    xsf_cols st = Z.to_nat (n_scales (cfg t)) ->
    has_dims (xsf st) N (Z.to_nat (n_scales (cfg t))) = true ->
    exists st',
      scale_sample_loop t extractImage fhog st (seq k m) = Some st' /\
      has_dims (xsf st') N (Z.to_nat (n_scales (cfg t))) = true /\
      forall r j, (r < N)%nat ->
        mat_get (xsf st') r j
        = if (k <=? j)%nat && (j <? k + m)%nat
             && negb (degenerate (scale_patch_size t extractImage j))
          then nth j (s_hann t) 0 * nth r (fhog j) 0
          else mat_get (xsf st) r j.
Proof.
  intros Hlen. induction m as [| m IH]; intros k st Hk Hk1 Ht Hc Hd.
  - exists st. split; [reflexivity |]. split; [exact Hd |].
    intros r j Hr.
    destruct (Nat.leb_spec k j); destruct (Nat.ltb_spec j (k + 0));
      try reflexivity; lia.
  - cbn [seq scale_sample_loop].
    destruct (degenerate (scale_patch_size t extractImage k)) eqn:Hdeg.
    + rewrite scale_sample_step_skip by exact Hdeg.
      destruct (IH (S k) st ltac:(lia) ltac:(lia) Ht Hc Hd)
        as (st' & E & Hd' & Hm').
      exists st'. split; [exact E |]. split; [exact Hd' |].
      intros r j Hr. rewrite Hm' by exact Hr.
      destruct (Nat.eq_dec j k) as [-> | Hne].
      * rewrite Hdeg.
        replace (S k <=? k)%nat with false
          by (symmetry; apply Nat.leb_gt; lia).
        cbn [negb andb]. rewrite !andb_false_r. reflexivity.
      * replace (S k <=? j)%nat with (k <=? j)%nat
          by (destruct (Nat.leb_spec k j); destruct (Nat.leb_spec (S k) j);
              try reflexivity; lia).
        replace (S k + m)%nat with (k + S m)%nat by lia. reflexivity.
    + destruct (scale_sample_step_copy t extractImage fhog st k N Hdeg
                  ltac:(lia) Ht Hc Hd ltac:(lia)
                  (Hlen k ltac:(lia) Hdeg))
        as (st1 & E1 & Ht1 & Hc1 & Hd1 & Hm1).
      rewrite E1.
      destruct (IH (S k) st1 ltac:(lia) ltac:(lia) Ht1 Hc1 Hd1)
        as (st' & E & Hd' & Hm').
      exists st'. split; [exact E |]. split; [exact Hd' |].
      intros r j Hr. rewrite Hm' by exact Hr. rewrite Hm1 by exact Hr.
      destruct (Nat.eqb_spec j k) as [-> | Hne].
      * rewrite Hdeg.
        replace (S k <=? k)%nat with false
          by (symmetry; apply Nat.leb_gt; lia).
        replace (k <=? k)%nat with true
          by (symmetry; apply Nat.leb_le; lia).
        replace (k <? k + S m)%nat with true
          by (symmetry; apply Nat.ltb_lt; lia).
        reflexivity.
      * replace (S k <=? j)%nat with (k <=? j)%nat
          by (destruct (Nat.leb_spec k j); destruct (Nat.leb_spec (S k) j);
              try reflexivity; lia).
        replace (S k + m)%nat with (k + S m)%nat by lia. reflexivity.
Qed.

(** When the patch of scale index 0 is cut, [get_scale_sample] returns a
    sample with one row per feature and one column per scale.  Column [i]
    holds the features of patch [i] weighted by the scale window, and stays
    zero when patch [i] is degenerate: such a patch is skipped and the loop
    goes on. *)
Theorem get_scale_sample_columns (t : KCFTracker)
    (extractImage : R -> R -> R -> R -> Z * Z) (fhog : nat -> list R) :
  (0 < n_scales (cfg t))%Z ->
  degenerate (scale_patch_size t extractImage 0) = false ->
  (forall i, (i < Z.to_nat (n_scales (cfg t)))%nat ->
             degenerate (scale_patch_size t extractImage i) = false ->
             (length (fhog 0%nat) <= length (fhog i))%nat) ->
  exists sample,
    get_scale_sample t extractImage fhog = Some sample /\
    has_dims sample (length (fhog 0%nat)) (Z.to_nat (n_scales (cfg t))) = true /\
    forall r i, (r < length (fhog 0%nat))%nat ->
                (i < Z.to_nat (n_scales (cfg t)))%nat ->
      mat_get sample r i
      = if degenerate (scale_patch_size t extractImage i) then 0
        else nth i (s_hann t) 0 * nth r (fhog i) 0.
Proof.
  intros Hn H0 Hlen. unfold get_scale_sample.
  set (n := Z.to_nat (n_scales (cfg t))) in *.
  set (N := length (fhog 0%nat)) in *.
  assert (Hn' : (0 < n)%nat) by (unfold n; lia).
  destruct n as [| n'] eqn:En; [lia |].
  cbn [seq scale_sample_loop].
  rewrite scale_sample_step_eq, H0. cbn [Nat.eqb]. cbv zeta.
  cbn [totalSize xsf xsf_cols]. fold N. rewrite Nat.leb_refl.
  fold n. rewrite En.
  destruct (copyTo_col_spec
              (map (fun v => nth 0 (s_hann t) 0 * v) (firstn N (fhog 0%nat)))
              (mat_init N (S n') (fun _ _ => 0)) N (S n') 0
              (has_dims_init _ _ _))
    as (m0 & E0 & Hd0 & Hm0);
    [rewrite length_map; apply firstn_length_le; unfold N; lia | lia |].
  rewrite E0.
  destruct (scale_sample_loop_columns t extractImage fhog N
              ltac:(fold n; rewrite En; exact Hlen)
              n' 1%nat (mkSample m0 (S n') (Some N)))
    as (st' & E & Hd' & Hm');
    try (fold n; rewrite En); try reflexivity; try lia; try exact Hd0.
  rewrite E. exists (xsf st'). split; [reflexivity |].
  fold n in Hd'. rewrite En in Hd'. split; [exact Hd' |].
  intros r i Hr Hi. rewrite Hm' by exact Hr. cbn [xsf].
  rewrite Hm0 by exact Hr.
  destruct (Nat.eqb_spec i 0) as [-> | Hne].
  - rewrite H0. cbn [Nat.leb andb].
    rewrite (nth_map_in _ _ 0 0)
      by (rewrite firstn_length_le by (unfold N; lia); exact Hr).
    rewrite nth_firstn. apply Nat.ltb_lt in Hr. rewrite Hr. reflexivity.
  - replace (1 <=? i)%nat with true by (symmetry; apply Nat.leb_le; lia).
    replace (i <? 1 + n')%nat with true by (symmetry; apply Nat.ltb_lt; lia).
    cbn [andb].
    destruct (degenerate (scale_patch_size t extractImage i));
      cbn [negb]; [| reflexivity].
    apply mat_get_init; lia.
Qed.

Lemma get_scale_sample_columns_witness :
  exists sample,
    get_scale_sample sample_tracker extract_fixed (constant_fhog 31)
    = Some sample /\
    has_dims sample 31 33 = true.
Proof.
  destruct (get_scale_sample_columns sample_tracker extract_fixed
              (constant_fhog 31)) as (sample & E & D & _).
  - reflexivity.
  - reflexivity.
  - intros i _ _. unfold constant_fhog. lia.
  - exists sample. split; [exact E | exact D].
Defined.

(** ** Training: the running averages *)

Lemma mat_scale_dims (c : R) (m : cv.Mat) (h w : nat) :
  has_dims m h w = true -> has_dims (mat_scale c m) h w = true.
Proof.
  intros Hd. apply has_dims_spec in Hd. destruct Hd as [Hl Hr].
  apply has_dims_spec. unfold mat_scale. split.
  - rewrite length_map. exact Hl.
  - intros r Hin. apply in_map_iff in Hin. destruct Hin as (r0 & <- & Hin).
    rewrite length_map. apply Hr, Hin.
Qed.

Lemma mat_get_scale (c : R) (m : cv.Mat) (h w i j : nat) :
  has_dims m h w = true -> (i < h)%nat -> (j < w)%nat ->
  mat_get (mat_scale c m) i j = c * mat_get m i j.
Proof.
  intros Hd Hi Hj. unfold mat_scale.
  pose proof (has_dims_nth m h w i Hd Hi) as Hw.
  apply has_dims_spec in Hd. destruct Hd as [Hl _].
  apply mat_get_map_map; lia.
Qed.

(** [train] moves every entry of the template from its old value to the
    value of the new features by the fraction [train_interp_factor]: the
    shape is kept, a factor of 1 (the call in [init]) replaces the template,
    and a factor between 0 and 1 leaves every entry between the old and the
    new value. *)
Theorem train_tmpl_blend (tmpl x : cv.Mat) (f : R) (h w i j : nat) :
  has_dims tmpl h w = true -> has_dims x h w = true ->
  (i < h)%nat -> (j < w)%nat ->
  has_dims (train_tmpl tmpl x f) h w = true /\
  mat_get (train_tmpl tmpl x f) i j
  = mat_get tmpl i j + f * (mat_get x i j - mat_get tmpl i j) /\
  (f = 1 -> mat_get (train_tmpl tmpl x f) i j = mat_get x i j) /\
  (0 <= f <= 1 ->
   Rmin (mat_get tmpl i j) (mat_get x i j)
   <= mat_get (train_tmpl tmpl x f) i j
   <= Rmax (mat_get tmpl i j) (mat_get x i j)).
Proof.
  intros Ht Hx Hi Hj. unfold train_tmpl.
  assert (E : mat_get (mat_add (mat_scale (1 - f) tmpl) (mat_scale f x)) i j
              = mat_get tmpl i j + f * (mat_get x i j - mat_get tmpl i j)).
  { rewrite (mat_get_add _ _ h w) by (try apply mat_scale_dims; assumption).
    rewrite (mat_get_scale _ _ h w), (mat_get_scale _ _ h w) by assumption.
    ring. }
  split; [apply mat_add_dims; apply mat_scale_dims; assumption |].
  split; [exact E |]. rewrite E. split.
  - intros ->. ring.
  - intros [F0 F1].
    unfold Rmin, Rmax. destruct (Rle_dec (mat_get tmpl i j) (mat_get x i j));
      split; nra.
Qed.

Lemma train_tmpl_blend_witness :
  mat_get (train_tmpl gray_patch [[1; 1]; [1; 1]] 1) 0 1 = 1.
Proof.
  destruct (train_tmpl_blend gray_patch [[1; 1]; [1; 1]] 1 2 2 0 1)
    as (_ & _ & H & _); try reflexivity; try lia.
  exact (H eq_refl).
Defined.

Lemma reduce_sum_nonneg (n : nat) (m : cv.Mat) :
  Forall (Forall (fun v => 0 <= v)) m ->
  Forall (fun v => 0 <= v) (reduce_sum n m).
Proof.
  intros Hm. apply Forall_forall. intros v Hv. unfold reduce_sum in Hv.
  apply in_map_iff in Hv. destruct Hv as (j & <- & _).
  induction m as [| row m IH]; simpl; [lra |].
  inversion Hm as [| ? ? Hrow Hrest]; subst.
  specialize (IH Hrest).
  assert (0 <= nth j row 0); [| lra].
  destruct (Nat.lt_ge_cases j (length row)) as [L | L].
  - apply (proj1 (Forall_forall _ _) Hrow). apply nth_In. exact L.
  - rewrite nth_overflow by exact L. lra.
Qed.

Lemma new_sf_den_nonneg (n : nat) (xsf : Spectrum) :
  has_dims (new_sf_den n xsf) 1 n = true /\
  Forall (Forall (fun v => 0 <= v)) (new_sf_den n xsf).
Proof.
  unfold new_sf_den. split.
  - apply has_dims_spec. split; [reflexivity |].
    intros r [<- | []]. unfold reduce_sum. rewrite length_map, length_seq.
    reflexivity.
  - constructor; [| constructor]. apply reduce_sum_nonneg.
    apply Forall_forall. intros row Hrow. apply in_map_iff in Hrow.
    destruct Hrow as (r0 & <- & _). apply Forall_forall. intros v Hv.
    apply in_map_iff in Hv. destruct Hv as (z & <- & _). nra.
Qed.

Lemma addWeighted_nonneg (a b : cv.Mat) (alpha beta : R) (h w : nat) :
  0 <= alpha -> 0 <= beta ->
  has_dims a h w = true -> has_dims b h w = true ->
  Forall (Forall (fun v => 0 <= v)) a ->
  Forall (Forall (fun v => 0 <= v)) b ->
  has_dims (addWeighted a alpha b beta 0) h w = true /\
  Forall (Forall (fun v => 0 <= v)) (addWeighted a alpha b beta 0).
Proof.
  intros Ha Hb Da Db Na Nb.
  apply has_dims_spec in Da, Db. destruct Da as [La Ra], Db as [Lb Rb].
  unfold addWeighted. split.
  - apply has_dims_spec. split.
    + rewrite length_map, length_combine. lia.
    + intros r Hr. apply in_map_iff in Hr. destruct Hr as ([ra rb] & <- & Hin).
      unfold zip_with. rewrite length_map, length_combine. simpl.
      rewrite (Ra ra (in_combine_l _ _ _ _ Hin)).
      rewrite (Rb rb (in_combine_r _ _ _ _ Hin)). lia.
  - apply Forall_forall. intros r Hr. apply in_map_iff in Hr.
    destruct Hr as ([ra rb] & <- & Hin). apply Forall_forall. intros v Hv.
    unfold zip_with in Hv. apply in_map_iff in Hv.
    destruct Hv as ([u1 u2] & <- & Hin2). simpl in *.
    pose proof (proj1 (Forall_forall _ _) Na ra (in_combine_l _ _ _ _ Hin)) as F1.
    pose proof (proj1 (Forall_forall _ _) Nb rb (in_combine_r _ _ _ _ Hin)) as F2.
    pose proof (proj1 (Forall_forall _ _) F1 u1 (in_combine_l _ _ _ _ Hin2)).
    pose proof (proj1 (Forall_forall _ _) F2 u2 (in_combine_r _ _ _ _ Hin2)).
    cbv beta in *. nra.
Qed.

(** The denominator of the scale filter over a run of [train_scale]: the
    initial call followed by any number of updates.  It stays one row with
    an entry per scale, no entry is ever negative, and so
    [sf_den + scale_lambda], by which [detect_scale] divides, is positive
    everywhere. *)
Theorem train_scale_den_positive (t : KCFTracker) (mem : cv.Mat)
    (first : Spectrum) (frames : list Spectrum) :
  0 <= scale_lr (cfg t) <= 1 -> 0 < scale_lambda (cfg t) ->
  let sf_den :=
    fold_left (fun den xsf => train_scale_den t den xsf false) frames
              (train_scale_den t mem first true) in
  has_dims sf_den 1 (Z.to_nat (n_scales (cfg t))) = true /\
  Forall (Forall (fun v => 0 < v + scale_lambda (cfg t))) sf_den.
Proof.
  intros Hlr Hl.
  assert (G : forall den,
             has_dims den 1 (Z.to_nat (n_scales (cfg t))) = true ->
             Forall (Forall (fun v => 0 <= v)) den ->
             has_dims (fold_left (fun den xsf => train_scale_den t den xsf false)
                                 frames den)
                      1 (Z.to_nat (n_scales (cfg t))) = true /\
             Forall (Forall (fun v => 0 <= v))
                    (fold_left (fun den xsf => train_scale_den t den xsf false)
                               frames den)).
  { induction frames as [| xsf frames IH]; intros den Hd Hn; [split; assumption |].
    cbn [fold_left]. 
    destruct (new_sf_den_nonneg (Z.to_nat (n_scales (cfg t))) xsf) as [D1 N1].
    destruct (addWeighted_nonneg den (new_sf_den (Z.to_nat (n_scales (cfg t))) xsf)
                (1 - scale_lr (cfg t)) (scale_lr (cfg t))
                1 (Z.to_nat (n_scales (cfg t)))
                ltac:(lra) ltac:(lra) Hd D1 Hn N1) as [D2 N2].
    apply IH; assumption. }
  destruct (new_sf_den_nonneg (Z.to_nat (n_scales (cfg t))) first) as [D1 N1].
  destruct (G (train_scale_den t mem first true) D1 N1) as [D N].
  split; [exact D |].
  eapply Forall_impl; [| exact N]. intros row Hrow.
  eapply Forall_impl; [| exact Hrow]. intros v Hv. cbv beta in *. lra.
Qed.

Lemma train_scale_den_positive_witness :
  Forall (Forall (fun v => 0 < v + 0.01))
    (fold_left (fun den xsf =>
                  train_scale_den (KCFTracker_new fresh true true true false)
                                  den xsf false)
               [[[(1, 2)]]]
               (train_scale_den (KCFTracker_new fresh true true true false)
                                [] [[(0, 0)]] true)).
Proof.
  destruct (train_scale_den_positive
              (KCFTracker_new fresh true true true false)
              [] [[(0, 0)]] [[[(1, 2)]]]) as [_ H].
  - simpl. lra.
  - simpl. lra.
  - exact H.
Defined.

(** ** The kernel correlation as a distance *)













(** ** The range of the kernel correlation *)




